(** * Lamport distributed mutual exclusion: the per-node protocol engine

    A shallow embedding of [LamportNode] from [node.py] and the properties of
    its clock, its request queue, its reply and deferred sets and its
    acquisition cycle.

    Python integers are unbounded and are modelled by [Z]; node identifiers are
    [str] and are modelled by [string]; the [peers] dictionary is a [gmap] from
    peer id to URL; [replies_received] and [deferred] are Python sets of [str],
    modelled by [gset string]; [request_queue] is a Python list of
    [(int, str)] tuples.

    The locks of the source protect single read-modify-write regions.  Here
    every RPC handler and every phase of [request_cs_and_wait] is one atomic
    step; outbound RPCs and log lines are recorded in a trace.

    A broadcast goes through [peers] in the order of [map_to_list] and the
    flush of [deferred] in the order of [elements], where Python goes by
    insertion and by hash; no property below depends on that order. *)

From Stdlib Require Import ZArith String Ascii List Sorted Permutation Lia.
From stdpp Require Import gmap strings list fin_maps sorting.

Local Open Scope Z_scope.

(** ** Python comparison of [(int, str)] tuples *)

Module PyTuple.

(** A queue entry [(int(ts), str(from_id))]. *)
Definition t : Type := Z * string.

(** [a == b] on tuples: element-wise equality. *)
Definition eqb (a b : t) : bool :=
  (a.1 =? b.1) && String.eqb a.2 b.2.

(** [a < b] on tuples: the first position where the two differ decides;
    [str] is compared lexicographically by code point. *)
Definition ltb (a b : t) : bool :=
  if a.1 =? b.1 then
    if String.eqb a.2 b.2 then false else String.ltb a.2 b.2
  else a.1 <? b.1.

(** The order [list.sort] arranges the queue in: [b] is not before [a]. *)
Definition le (a b : t) : Prop := ltb b a = false.

Global Instance le_dec a b : Decision (le a b).
Proof. unfold le. apply _. Defined.

End PyTuple.

(** ** [list.sort()]

    The sort is stable and uses only [<].  It is modelled by a stable
    insertion sort, which takes the elements from left to right and puts each
    one behind the elements that are not greater. *)

Section Sorting.
Context {A : Type} (lt : A → A → bool).

Fixpoint insort (x : A) (l : list A) : list A :=
  match l with
  | [] => [x]
  | y :: l' => if lt x y then x :: y :: l' else y :: insort x l'
  end.

Definition py_sort (l : list A) : list A :=
  fold_left (λ acc x, insort x acc) l [].

End Sorting.

(** ** The node *)

Record LamportNode := mkNode {
  node_id : string;
  peers : gmap string string;
  clock : Z;
  request_queue : list PyTuple.t;
  requesting : bool;
  own_request_ts : option Z;          (* [None] until the first request *)
  replies_received : gset string;
  deferred : gset string
}.

(** [LamportNode.__init__]: the peer directory is the configuration without
    the node's own entry; everything else starts empty, the clock at 0. *)
Definition new_node (id : string) (cfg : gmap string string) : LamportNode :=
  {| node_id := id;
     peers := filter (λ kv, kv.1 ≠ id) cfg;
     clock := 0;
     request_queue := [];
     requesting := false;
     own_request_ts := None;
     replies_received := ∅;
     deferred := ∅ |}.

Definition set_clock (c : Z) (s : LamportNode) : LamportNode :=
  mkNode (node_id s) (peers s) c (request_queue s) (requesting s)
         (own_request_ts s) (replies_received s) (deferred s).

Definition set_request_queue (q : list PyTuple.t) (s : LamportNode) : LamportNode :=
  mkNode (node_id s) (peers s) (clock s) q (requesting s)
         (own_request_ts s) (replies_received s) (deferred s).

Definition set_requesting (b : bool) (s : LamportNode) : LamportNode :=
  mkNode (node_id s) (peers s) (clock s) (request_queue s) b
         (own_request_ts s) (replies_received s) (deferred s).

Definition set_own_request_ts (o : option Z) (s : LamportNode) : LamportNode :=
  mkNode (node_id s) (peers s) (clock s) (request_queue s) (requesting s)
         o (replies_received s) (deferred s).

Definition set_replies_received (r : gset string) (s : LamportNode) : LamportNode :=
  mkNode (node_id s) (peers s) (clock s) (request_queue s) (requesting s)
         (own_request_ts s) r (deferred s).

Definition set_deferred (d : gset string) (s : LamportNode) : LamportNode :=
  mkNode (node_id s) (peers s) (clock s) (request_queue s) (requesting s)
         (own_request_ts s) (replies_received s) d.

(** ** What a node does to the outside: RPCs and log lines *)

Inductive rpc :=
| receive_request_rpc (ts : Z) (sender : string)
| receive_reply_rpc (ts : Z) (sender : string)
| receive_release_rpc (ts : Z) (sender : string).

Inductive log_msg :=
| ReceivedRequest (from : string) (ts : Z) (queue : list PyTuple.t)
| SentReply (to : string)
| ErrorSendingReply (to : string)
| DeferredReply (to : string)
| ReceivedReply (from : string) (replies : gset string)
| ReceivedRelease (from : string) (queue : list PyTuple.t)
| BroadcastingRequest (ts : Z)
| ErrorSendingRequest (to : string)
| BroadcastingRelease (ts : Z)
| ErrorSendingRelease (to : string)
| SentDeferredReply (to : string)
| ErrorSendingDeferredReply (to : string)
| WaitingForReplies
| EnteringCriticalSection
| ExitingCriticalSection.

Inductive event :=
| Call (pid url : string) (r : rpc) (ok : bool)
    (* [ServerProxy(url).<r>]; [ok = false] when the call raised *)
| Log (clk : Z) (m : log_msg)
    (* [self.log(m)], which prints [self.clock] as it is at that moment *)
| LedgerEntered (id : string)
| LedgerExiting (id : string).

Global Instance rpc_eq_dec : EqDecision rpc.
Proof. solve_decision. Defined.
Global Instance log_msg_eq_dec : EqDecision log_msg.
Proof. solve_decision. Defined.
Global Instance event_eq_dec : EqDecision event.
Proof. solve_decision. Defined.

(** ** The monad of node methods

    A method runs on a world: the node and the outcomes the transport will
    give to the next RPC attempts ([false]: the attempt raises; an exhausted
    list means every further attempt succeeds).  It returns a value or raises,
    and writes a trace; the mutations made before an exception stay. *)

Inductive exn := TypeError.

Inductive outcome (A : Type) :=
| Return (a : A)
| Raise (e : exn).
Arguments Return {A} a.
Arguments Raise {A} e.

Record world := World {
  w_node : LamportNode;
  w_net : list bool
}.

Definition M (A : Type) : Type := world → outcome A * world * list event.

Global Instance M_ret : MRet M := λ A a w, (Return a, w, []).

Global Instance M_bind : MBind M := λ A B k m w,
  match m w with
  | (Return a, w1, tr1) =>
      match k a w1 with
      | (o, w2, tr2) => (o, w2, tr1 ++ tr2)
      end
  | (Raise e, w1, tr1) => (Raise e, w1, tr1)
  end.

Definition raise {A} (e : exn) : M A := λ w, (Raise e, w, []).

Definition get : M LamportNode := λ w, (Return (w_node w), w, []).

Definition modify (f : LamportNode → LamportNode) : M unit :=
  λ w, (Return tt, World (f (w_node w)) (w_net w), []).

Definition emit (e : event) : M unit :=
  λ w, (Return tt, w, [e]).

(** One RPC attempt: the transport decides whether it raises. *)
Definition call (pid url : string) (r : rpc) : M bool :=
  λ w, let ok := hd true (w_net w) in
       (Return ok, World (w_node w) (tail (w_net w)), [Call pid url r ok]).

Fixpoint for_each {A} (l : list A) (body : A → M unit) : M unit :=
  match l with
  | [] => mret tt
  | x :: l' => body x ;; for_each l' body
  end.

(** [int(x)] where [x] is [None] or an [int]. *)
Definition py_int (x : option Z) : M Z :=
  match x with
  | Some z => mret z
  | None => raise TypeError
  end.

(** ** Clock *)

Definition inc_clock : M Z :=
  s ← get;
  let c := clock s + 1 in
  modify (set_clock c) ;;
  mret c.

Definition update_clock (remote_ts : Z) : M Z :=
  s ← get;
  let c := Z.max (clock s) remote_ts + 1 in
  modify (set_clock c) ;;
  mret c.

Definition log (m : log_msg) : M unit :=
  s ← get;
  emit (Log (clock s) m).

(** ** RPC handlers *)

Definition queue_append_sort (r : PyTuple.t) : M unit :=
  modify (λ s, set_request_queue (py_sort PyTuple.ltb (request_queue s ++ [r])) s).

Definition queue_remove (id : string) : M unit :=
  modify (λ s, set_request_queue (filter (λ x, x.2 ≠ id) (request_queue s)) s).

Definition receive_request (ts : Z) (from_id : string) : M bool :=
  update_clock ts ;;
  queue_append_sort (ts, from_id) ;;
  s ← get;
  log (ReceivedRequest from_id ts (request_queue s)) ;;
  do_reply ←
    (s ← get;
     if negb (requesting s) then mret true
     else
       let their := (ts, from_id) in
       own ← py_int (own_request_ts s);
       let mine := (own, node_id s) in
       mret (PyTuple.ltb their mine));
  (if do_reply : bool then
     s ← get;
     match peers s !! from_id with
     | Some url =>
         ok ← call from_id url (receive_reply_rpc (clock s) (node_id s));
         if ok : bool then log (SentReply from_id)
         else log (ErrorSendingReply from_id)
     | None => log (ErrorSendingReply from_id)     (* [KeyError], caught *)
     end
   else
     modify (λ s, set_deferred ({[from_id]} ∪ deferred s) s) ;;
     log (DeferredReply from_id)) ;;
  mret true.

Definition receive_reply (ts : Z) (from_id : string) : M bool :=
  update_clock ts ;;
  modify (λ s, set_replies_received ({[from_id]} ∪ replies_received s) s) ;;
  s ← get;
  log (ReceivedReply from_id (replies_received s)) ;;
  mret true.

Definition receive_release (ts : Z) (from_id : string) : M bool :=
  update_clock ts ;;
  queue_remove from_id ;;
  s ← get;
  log (ReceivedRelease from_id (request_queue s)) ;;
  mret true.

(** ** Core logic *)

Definition send_request_to_all : M unit :=
  ts ← inc_clock;
  modify (set_own_request_ts (Some ts)) ;;
  s ← get;
  queue_append_sort (ts, node_id s) ;;
  log (BroadcastingRequest ts) ;;
  for_each (map_to_list (peers s)) (λ '(pid, url),
    ok ← call pid url (receive_request_rpc ts (node_id s));
    if ok : bool then mret tt else log (ErrorSendingRequest pid)).

Definition send_release_to_all : M unit :=
  ts ← inc_clock;
  s ← get;
  queue_remove (node_id s) ;;
  log (BroadcastingRelease ts) ;;
  for_each (map_to_list (peers s)) (λ '(pid, url),
    ok ← call pid url (receive_release_rpc ts (node_id s));
    if ok : bool then mret tt else log (ErrorSendingRelease pid)) ;;
  s ← get;
  let deferred_list := elements (deferred s) in
  modify (set_deferred ∅) ;;
  for_each deferred_list (λ pid,
    s ← get;
    match peers s !! pid with
    | Some url =>
        ok ← call pid url (receive_reply_rpc (clock s) (node_id s));
        if ok : bool then log (SentDeferredReply pid)
        else log (ErrorSendingDeferredReply pid)
    | None => log (ErrorSendingDeferredReply pid)   (* [KeyError], caught *)
    end).

(** The values [can_enter_cs] can return: [and] yields one of its operands,
    so the result is [False], [True] or the empty queue [[]]. *)
Inductive pyval :=
| PyBool (b : bool)
| PyList (l : list PyTuple.t).

Definition truthy (v : pyval) : bool :=
  match v with
  | PyBool b => b
  | PyList l => match l with [] => false | _ => true end
  end.

Definition can_enter_cs : M pyval :=
  s ← get;
  let all_replied := Nat.eqb (size (replies_received s)) (size (peers s)) in
  smallest ←
    match request_queue s with
    | [] => mret (PyList [])
    | first :: _ =>
        own ← py_int (own_request_ts s);
        mret (PyBool (PyTuple.eqb first (own, node_id s)))
    end;
  mret (if requesting s then
         if all_replied then smallest else PyBool all_replied
       else PyBool (requesting s)).

(** [critical_section] up to its [time.sleep(2)], and after it. *)
Definition critical_section_enter : M unit :=
  log EnteringCriticalSection ;;
  s ← get;
  emit (LedgerEntered (node_id s)).

Definition critical_section_exit : M unit :=
  s ← get;
  emit (LedgerExiting (node_id s)) ;;
  log ExitingCriticalSection.

Definition critical_section : M unit :=
  critical_section_enter ;; critical_section_exit.

(** [request_cs_and_wait], up to the wait loop. *)
Definition begin_cycle : M unit :=
  modify (set_replies_received ∅) ;;
  modify (set_requesting true) ;;
  send_request_to_all ;;
  log WaitingForReplies.

(** [request_cs_and_wait], after the critical section. *)
Definition end_cycle : M unit :=
  modify (set_requesting false) ;;
  modify (set_replies_received ∅) ;;
  send_release_to_all.

(** ** The node as a process

    [simulate] runs [request_cs_and_wait] again and again on one thread while
    the RPC server delivers messages.  [phase] says where that thread stands:
    outside [request_cs_and_wait], in its wait loop, or in
    [critical_section]. *)

Inductive phase := Idle | Requesting | InCriticalSection.

Global Instance phase_eq_dec : EqDecision phase.
Proof. solve_decision. Defined.

Record proc := Proc {
  phase_of : phase;
  node_of : LamportNode;
  trace_of : list event
}.

Inductive action :=
| DeliverRequest (ts : Z) (from_id : string) (net : list bool)
| DeliverReply (ts : Z) (from_id : string)
| DeliverRelease (ts : Z) (from_id : string)
| StartCycle (net : list bool)
| Poll
| FinishCycle (net : list bool).

Definition run_method {A} (m : M A) (net : list bool) (p : proc) : outcome A * proc :=
  match m (World (node_of p) net) with
  | (o, w, tr) => (o, Proc (phase_of p) (w_node w) (trace_of p ++ tr))
  end.

Definition set_phase (ph : phase) (p : proc) : proc :=
  Proc ph (node_of p) (trace_of p).

(** A handler that raises reports a fault to its caller and the node goes on
    with the state the handler left; an exception on the thread of
    [simulate] ends that thread. *)
Definition step (a : action) (p : proc) : option proc :=
  match a with
  | DeliverRequest ts from_id net =>
      Some (run_method (receive_request ts from_id) net p).2
  | DeliverReply ts from_id =>
      Some (run_method (receive_reply ts from_id) [] p).2
  | DeliverRelease ts from_id =>
      Some (run_method (receive_release ts from_id) [] p).2
  | StartCycle net =>
      match phase_of p with
      | Idle =>
          match run_method begin_cycle net p with
          | (Return _, p') => Some (set_phase Requesting p')
          | (Raise _, _) => None
          end
      | _ => None
      end
  | Poll =>
      match phase_of p with
      | Requesting =>
          match run_method can_enter_cs [] p with
          | (Return v, p') =>
              if truthy v then
                Some (set_phase InCriticalSection
                        (run_method critical_section_enter [] p').2)
              else Some p'
          | (Raise _, _) => None
          end
      | _ => None
      end
  | FinishCycle net =>
      match phase_of p with
      | InCriticalSection =>
          match run_method (critical_section_exit ;; end_cycle) net p with
          | (Return _, p') => Some (set_phase Idle p')
          | (Raise _, _) => None
          end
      | _ => None
      end
  end.

Fixpoint run (acts : list action) (p : proc) : option proc :=
  match acts with
  | [] => Some p
  | a :: acts' =>
      match step a p with
      | Some p' => run acts' p'
      | None => None
      end
  end.

Definition init (id : string) (cfg : gmap string string) : proc :=
  Proc Idle (new_node id cfg) [].

Inductive reachable (id : string) (cfg : gmap string string) : proc → Prop :=
| reach_init : reachable id cfg (init id cfg)
| reach_step a p p' :
    reachable id cfg p → step a p = Some p' → reachable id cfg p'.

(** ** Notions the properties are stated with *)

(** Timestamp first, node id second. *)
Definition ts_then_id_lt (a b : PyTuple.t) : Prop :=
  a.1 < b.1 ∨ (a.1 = b.1 ∧ String.ltb a.2 b.2 = true).

Definition ts_then_id_le (a b : PyTuple.t) : Prop :=
  a.1 < b.1 ∨ (a.1 = b.1 ∧ String.leb a.2 b.2 = true).

Definition ascending (q : list PyTuple.t) : Prop :=
  StronglySorted ts_then_id_le q.

(** The least record of a queue, whatever the order of the queue. *)
Fixpoint ledger_minimum (q : list PyTuple.t) : option PyTuple.t :=
  match q with
  | [] => None
  | x :: q' =>
      match ledger_minimum q' with
      | None => Some x
      | Some m => Some (if PyTuple.ltb m x then m else x)
      end
  end.

Definition records_of (id : string) (q : list PyTuple.t) : list PyTuple.t :=
  filter (λ x, x.2 = id) q.


(** What the node ends with, what it returned and what it wrote. *)
Definition node_after {A} (m : M A) (net : list bool) (s : LamportNode) : LamportNode :=
  w_node (m (World s net)).1.2.

Definition result_of {A} (m : M A) (net : list bool) (s : LamportNode) : outcome A :=
  (m (World s net)).1.1.

Definition trace_after {A} (m : M A) (net : list bool) (s : LamportNode) : list event :=
  (m (World s net)).2.

(** [can_enter_cs()] returned, and what it returned is truthy: the wait loop
    of [request_cs_and_wait] ends. *)
Definition can_enter (s : LamportNode) : bool :=
  match result_of can_enter_cs [] s with
  | Return v => truthy v
  | Raise _ => false
  end.

(** The RPCs of a trace, in order. *)
Definition calls (tr : list event) : list (string * string * rpc) :=
  omap (λ e, match e with Call pid url r _ => Some (pid, url, r) | _ => None end) tr.

(** [do_reply] comes out [True] in [receive_request]: the node is not
    requesting, or the incoming tuple is before its own. *)
Definition reply_due (ts : Z) (from_id : string) (s : LamportNode) : Prop :=
  requesting s = false ∨
  ∃ own, own_request_ts s = Some own
         ∧ PyTuple.ltb (ts, from_id) (own, node_id s) = true.

(** The log line the [except] branch writes for a failed RPC. *)
Definition is_error_log (r : rpc) (pid : string) (m : log_msg) : bool :=
  match r, m with
  | receive_request_rpc _ _, ErrorSendingRequest to => String.eqb to pid
  | receive_release_rpc _ _, ErrorSendingRelease to => String.eqb to pid
  | receive_reply_rpc _ _, ErrorSendingReply to => String.eqb to pid
  | receive_reply_rpc _ _, ErrorSendingDeferredReply to => String.eqb to pid
  | _, _ => false
  end.

(** Every RPC of the trace that raised is followed at once by its error
    line. *)
Fixpoint failures_logged (tr : list event) : bool :=
  match tr with
  | [] => true
  | Call pid _ r false :: rest =>
      match rest with
      | Log _ m :: _ => is_error_log r pid m && failures_logged rest
      | _ => false
      end
  | _ :: rest => failures_logged rest
  end.

(** The RPCs of the two broadcasts and of the flush of [deferred]. *)
Definition request_calls (s : LamportNode) (ts : Z) : list (string * string * rpc) :=
  (λ kv, (kv.1, kv.2, receive_request_rpc ts (node_id s))) <$> map_to_list (peers s).

Definition release_calls (s : LamportNode) (ts : Z) : list (string * string * rpc) :=
  (λ kv, (kv.1, kv.2, receive_release_rpc ts (node_id s))) <$> map_to_list (peers s).

Definition deferred_reply_calls (s : LamportNode) (ts : Z) : list (string * string * rpc) :=
  omap (λ pid, (λ url, (pid, url, receive_reply_rpc ts (node_id s))) <$> peers s !! pid)
       (elements (deferred s)).

(** What holds of the node between any two steps. *)
Definition consistent (id : string) (cfg : gmap string string) (p : proc) : Prop :=
  let s := node_of p in
  node_id s = id
  ∧ peers s = peers (new_node id cfg)
  ∧ ascending (request_queue s)
  ∧ (phase_of p = Idle → requesting s = false ∧ deferred s = ∅)
  ∧ (phase_of p ≠ Idle → requesting s = true ∧ is_Some (own_request_ts s)).

(** The queue is in order and its first entry is its least. *)
Definition minimum_first (q : list PyTuple.t) : Prop :=
  ascending q ∧ head q = ledger_minimum q.

(** The entry condition in the words of the requirement: every peer is in
    [replies_received] and the least record of the queue is the node's
    own. *)
Definition stated_entry_condition (s : LamportNode) : Prop :=
  requesting s = true
  ∧ dom (peers s) ⊆ replies_received s
  ∧ ∃ own, own_request_ts s = Some own
           ∧ ledger_minimum (request_queue s) = Some (own, node_id s).

(** ** A cluster of three nodes, seen from node 1 *)

Definition three_nodes : gmap string string :=
  list_to_map [("1", "http://localhost:8001");
               ("2", "http://localhost:8002");
               ("3", "http://localhost:8003")]%string.

Definition node1 : LamportNode := new_node "1" three_nodes.

(** Node 1 has heard one request of node 2. *)
Definition node1_heard_request : LamportNode :=
  node_after (receive_request 1 "2") [] node1.

(** Node 1 is requesting; node 2 has replied, node 3 has not, and a reply
    with the sender id 9 has come in. *)
Definition node1_foreign_reply : LamportNode :=
  node_after (receive_reply 2 "9") []
    (node_after (receive_reply 2 "2") []
       (node_after begin_cycle [] node1)).

(** Node 1 is requesting with timestamp 1 and has heard a later request of
    node 2. *)
Definition node1_deferring : LamportNode :=
  node_after (receive_request 5 "2") [] (node_after begin_cycle [] node1).

(** A node at rest whose [deferred] is not empty: a [receive_request] that
    had decided to defer before the last release added its entry after
    it. *)
Definition node1_late_deferral : LamportNode :=
  mkNode "1" (peers node1) 9 [(5, "2"%string)] false (Some 1) ∅ {["2"%string]}.

(** Node 1 is delivered two requests of node 2 with no release between
    them. *)
Definition node1_two_requests : option proc :=
  run [DeliverRequest 1 "2" []; DeliverRequest 2 "2" []] (init "1" three_nodes).

(** Node 1 goes through one cycle, deferring a request of node 2 on the
    way. *)
Definition node1_one_cycle : option proc :=
  run [StartCycle []; DeliverRequest 5 "2" []; DeliverReply 6 "2";
       DeliverReply 3 "3"; Poll; FinishCycle [true; false]]
      (init "1" three_nodes).

(** Node 1 has the replies of both peers and is in its critical section. *)
Definition node1_in_critical_section : option proc :=
  run [StartCycle []; DeliverReply 2 "2"; DeliverReply 2 "3"; Poll]
      (init "1" three_nodes).

(** ** Notions for the node over its lifetime *)

(** No record of the queue is stamped later than the clock. *)
Definition stamps_bounded (s : LamportNode) : Prop :=
  Forall (λ r : PyTuple.t, r.1 ≤ clock s) (request_queue s).

(** The message an action delivers, if it delivers one. *)
Definition delivered_ts (a : action) : option Z :=
  match a with
  | DeliverRequest ts _ _ | DeliverReply ts _ | DeliverRelease ts _ => Some ts
  | _ => None
  end.

Definition is_reply (a : action) : bool :=
  match a with
  | DeliverReply _ _ => true
  | _ => false
  end.

(** A REPLY the action delivers comes from one of [senders]. *)
Definition reply_from (senders : gset string) (a : action) : bool :=
  match a with
  | DeliverReply _ from_id => bool_decide (from_id ∈ senders)
  | _ => true
  end.

Definition is_release_of (id : string) (a : action) : bool :=
  match a with
  | DeliverRelease _ from_id => String.eqb from_id id
  | _ => false
  end.

(** The lines of the shared ledger, which [critical_section] writes, and
    what [n] complete passes of node [id] through it leave there. *)
Definition is_ledger (e : event) : bool :=
  match e with
  | LedgerEntered _ | LedgerExiting _ => true
  | _ => false
  end.

Definition ledger_lines (tr : list event) : list event :=
  filter (λ e, is_ledger e = true) tr.

Fixpoint passes (id : string) (n : nat) : list event :=
  match n with
  | O => []
  | S n' => LedgerEntered id :: LedgerExiting id :: passes id n'
  end.

(** ** The address [main] starts the server on *)

(** [s.replace(old, new)]: the occurrences of [old] are found from left to
    right and do not overlap; [skip] counts the characters of an occurrence
    still to be passed over.  An empty [old] matches before every character
    and at the end. *)
Fixpoint py_replace_from (old new : string) (skip : nat) (s : string) : string :=
  match s with
  | EmptyString => EmptyString
  | String c s' =>
      match skip with
      | S k => py_replace_from old new k s'
      | O =>
          if String.prefix old s
          then String.append new (py_replace_from old new (String.length old - 1) s')
          else String c (py_replace_from old new 0 s')
      end
  end.

Fixpoint py_intersperse (new s : string) : string :=
  match s with
  | EmptyString => EmptyString
  | String c s' => String c (String.append new (py_intersperse new s'))
  end.

Definition py_replace (old new s : string) : string :=
  match old with
  | EmptyString => String.append new (py_intersperse new s)
  | _ => py_replace_from old new 0 s
  end.

(** [s.split(sep)] for a separator of one character: the pieces between the
    separators, empty ones included; the first piece and the others. *)
Fixpoint py_split_from (sep : ascii) (s : string) : string * list string :=
  match s with
  | EmptyString => (EmptyString, [])
  | String c s' =>
      let '(piece, others) := py_split_from sep s' in
      if Ascii.eqb c sep then (EmptyString, piece :: others)
      else (String c piece, others)
  end.

Definition py_split (sep : ascii) (s : string) : list string :=
  let '(piece, others) := py_split_from sep s in piece :: others.

(** [main]: [parts = url.replace("http://", "").split(":")], then
    [host = parts[0]] and [parts[1]], the text handed to [int] for the port.
    [None] is the [IndexError] of [parts[1]]. *)
Definition main_host_port (url : string) : option (string * string) :=
  let parts := py_split ":" (py_replace "http://" "" url) in
  host ← parts !! 0%nat;
  port ← parts !! 1%nat;
  Some (host, port).

Fixpoint has_char (c : ascii) (s : string) : bool :=
  match s with
  | EmptyString => false
  | String a s' => Ascii.eqb a c || has_char c s'
  end.

(** [old] occurs somewhere in [s]. *)
Fixpoint occurs (old s : string) : bool :=
  match s with
  | EmptyString => String.prefix old EmptyString
  | String c s' => String.prefix old s || occurs old s'
  end.

(** * Properties *)

(** ** The order on queue entries *)

Lemma ascii_compare_refl a : Ascii.compare a a = Eq.
Proof. unfold Ascii.compare. apply N.compare_refl. Qed.

Lemma ascii_compare_lt_trans a b c :
  Ascii.compare a b = Lt → Ascii.compare b c = Lt → Ascii.compare a c = Lt.
Proof. unfold Ascii.compare. rewrite !N.compare_lt_iff. lia. Qed.

Lemma string_compare_refl s : String.compare s s = Eq.
Proof. induction s as [|a s IH]; simpl; [done|]. by rewrite ascii_compare_refl. Qed.

Lemma string_compare_lt_trans s1 s2 s3 :
  String.compare s1 s2 = Lt → String.compare s2 s3 = Lt → String.compare s1 s3 = Lt.
Proof.
  revert s2 s3. induction s1 as [|a s1 IH]; intros [|b s2] [|c s3]; simpl; try done.
  destruct (Ascii.compare a b) eqn:Hab; try done;
    destruct (Ascii.compare b c) eqn:Hbc; try done.
  - apply Ascii.compare_eq_iff in Hab, Hbc. subst.
    rewrite ascii_compare_refl. apply IH.
  - apply Ascii.compare_eq_iff in Hab. subst. by rewrite Hbc.
  - apply Ascii.compare_eq_iff in Hbc. subst. by rewrite Hab.
  - by rewrite (ascii_compare_lt_trans _ _ _ Hab Hbc).
Qed.

Lemma string_ltb_irrefl s : String.ltb s s = false.
Proof. unfold String.ltb. by rewrite string_compare_refl. Qed.

Lemma string_ltb_trans s1 s2 s3 :
  String.ltb s1 s2 = true → String.ltb s2 s3 = true → String.ltb s1 s3 = true.
Proof.
  unfold String.ltb. intros H1 H2.
  destruct (String.compare s1 s2) eqn:E1; try done.
  destruct (String.compare s2 s3) eqn:E2; try done.
  by rewrite (string_compare_lt_trans _ _ _ E1 E2).
Qed.

Lemma string_ltb_leb s1 s2 : String.ltb s1 s2 = negb (String.leb s2 s1).
Proof.
  unfold String.ltb, String.leb. rewrite (String.compare_antisym s1 s2).
  by destruct (String.compare s2 s1).
Qed.

Lemma string_trichotomy s1 s2 :
  String.ltb s1 s2 = true ∨ s1 = s2 ∨ String.ltb s2 s1 = true.
Proof.
  unfold String.ltb. rewrite (String.compare_antisym s1 s2).
  destruct (String.compare s2 s1) eqn:E; simpl; auto.
  right; left. symmetry. by apply String.compare_eq_iff.
Qed.

Module PyTupleFacts.
Import PyTuple.

Lemma eqb_eq a b : eqb a b = true ↔ a = b.
Proof.
  destruct a as [t1 i1], b as [t2 i2]. unfold eqb; simpl.
  rewrite andb_true_iff, Z.eqb_eq, String.eqb_eq.
  split; [intros [-> ->]; done | intros [= -> ->]; done].
Qed.

Lemma ltb_spec a b : ltb a b = true ↔ ts_then_id_lt a b.
Proof.
  destruct a as [t1 i1], b as [t2 i2]. unfold ltb, ts_then_id_lt; simpl.
  destruct (Z.eqb_spec t1 t2) as [->|Hne].
  - destruct (String.eqb_spec i1 i2) as [->|Hi].
    + rewrite string_ltb_irrefl. split; [done|]. intros [?|[_ ?]]; [lia|done].
    + split; [auto|]. intros [?|[_ ?]]; [lia|done].
  - rewrite Z.ltb_lt. split; [auto|]. intros [?|[? _]]; [done|lia].
Qed.

Lemma le_spec a b : le a b ↔ ts_then_id_le a b.
Proof.
  unfold le. rewrite <- not_true_iff_false, ltb_spec.
  destruct a as [t1 i1], b as [t2 i2]. unfold ts_then_id_lt, ts_then_id_le; simpl.
  rewrite string_ltb_leb, negb_true_iff.
  destruct (String.leb i1 i2) eqn:E; split; intros H.
  - destruct (Z.lt_trichotomy t1 t2) as [?|[?|?]]; [auto|auto|]. destruct H; auto.
  - intros [?|[? ?]]; [|done]. destruct H as [?|[? _]]; lia.
  - destruct (Z.lt_trichotomy t1 t2) as [?|[?|?]]; [auto| |]; destruct H; auto.
  - intros [?|[? _]]; destruct H as [?|[? ?]]; try lia; done.
Qed.

Lemma ltb_irrefl a : ltb a a = false.
Proof.
  apply not_true_iff_false. rewrite ltb_spec. unfold ts_then_id_lt.
  rewrite string_ltb_irrefl. intros [?|[_ ?]]; [lia|done].
Qed.

Lemma ltb_trans a b c : ltb a b = true → ltb b c = true → ltb a c = true.
Proof.
  rewrite !ltb_spec. unfold ts_then_id_lt.
  intros [?|[? ?]] [?|[? ?]]; try (left; lia).
  right. split; [lia|]. by eapply string_ltb_trans.
Qed.

Lemma ltb_asym a b : ltb a b = true → ltb b a = false.
Proof.
  intros H. apply not_true_iff_false. intros H'.
  pose proof (ltb_trans _ _ _ H H') as Ha. by rewrite ltb_irrefl in Ha.
Qed.

Lemma trichotomy a b : ltb a b = true ∨ a = b ∨ ltb b a = true.
Proof.
  rewrite !ltb_spec. destruct a as [t1 i1], b as [t2 i2].
  unfold ts_then_id_lt; simpl.
  destruct (Z.lt_trichotomy t1 t2) as [?|[->|?]]; [auto| |auto].
  destruct (string_trichotomy i1 i2) as [?|[->|?]]; auto.
Qed.

Global Instance le_refl : Reflexive le.
Proof. intros a. apply ltb_irrefl. Qed.

Global Instance le_trans : Transitive le.
Proof.
  intros a b c Hab Hbc. unfold le in *.
  apply not_true_iff_false. intros Hca.
  destruct (trichotomy a b) as [Hlt|[->|Hlt]].
  - pose proof (ltb_trans _ _ _ Hca Hlt). congruence.
  - congruence.
  - congruence.
Qed.

Global Instance le_antisym : AntiSymm (=) le.
Proof.
  intros a b Hab Hba. unfold le in *.
  destruct (trichotomy a b) as [?|[?|?]]; congruence.
Qed.

Global Instance le_total : Total le.
Proof.
  intros a b. unfold le.
  destruct (ltb b a) eqn:E; [right; by apply ltb_asym | by left].
Qed.

Lemma ascending_iff q : ascending q ↔ StronglySorted le q.
Proof.
  unfold ascending. split; intros H; induction H; constructor; auto;
    (eapply Forall_impl; [eassumption|]); intros y; apply le_spec.
Qed.

End PyTupleFacts.

(** ** The sort *)

Section SortingFacts.
Context {A : Type} (lt : A → A → bool).
Let le (x y : A) : Prop := lt y x = false.
Hypothesis lt_asym : ∀ x y, lt x y = true → lt y x = false.
Hypothesis le_trans : ∀ x y z, le x y → le y z → le x z.

Lemma insort_Permutation x l : insort lt x l ≡ₚ x :: l.
Proof.
  induction l as [|y l IH]; simpl; [done|].
  destruct (lt x y); [done|]. rewrite IH. apply perm_swap.
Qed.

Lemma insort_sorted x l :
  StronglySorted le l → StronglySorted le (insort lt x l).
Proof.
  induction 1 as [|y l Hl IH Hy]; simpl.
  - repeat constructor.
  - destruct (lt x y) eqn:E.
    + constructor; [by constructor|].
      constructor; [by apply lt_asym|].
      eapply Forall_impl; [exact Hy|]. intros z Hz.
      eapply le_trans; [|exact Hz]. by apply lt_asym.
    + constructor; [exact IH|].
      rewrite (insort_Permutation x l). by constructor.
Qed.

Lemma py_sort_snoc l x : py_sort lt (l ++ [x]) = insort lt x (py_sort lt l).
Proof. unfold py_sort. by rewrite fold_left_app. Qed.

Lemma py_sort_Permutation l : py_sort lt l ≡ₚ l.
Proof.
  induction l as [|x l IH] using rev_ind; [done|].
  rewrite py_sort_snoc, insort_Permutation, IH.
  by rewrite Permutation_app_comm.
Qed.

Lemma py_sort_sorted l : StronglySorted le (py_sort lt l).
Proof.
  induction l as [|x l IH] using rev_ind; [constructor|].
  rewrite py_sort_snoc. by apply insort_sorted.
Qed.

Lemma insort_last x l : Forall (λ y, le y x) l → insort lt x l = l ++ [x].
Proof.
  induction 1 as [|y l Hy _ IH]; simpl; [done|].
  unfold le in Hy. by rewrite Hy, IH.
Qed.

Lemma py_sort_id l : StronglySorted le l → py_sort lt l = l.
Proof.
  induction l as [|x l IH] using rev_ind; [done|]. intros Hs.
  apply StronglySorted_app in Hs as (Hx & Hl & _).
  rewrite py_sort_snoc, (IH Hl). apply insort_last.
  apply Forall_forall. intros y Hy. apply Hx; [done|]. by apply list_elem_of_singleton.
Qed.

End SortingFacts.

(** ** The queue *)

Section QueueFacts.
Import PyTuple PyTupleFacts.

Lemma queue_sort_sorted q : StronglySorted le (py_sort ltb q).
Proof.
  apply (py_sort_sorted ltb ltb_asym).
  intros x y z. apply (@transitivity _ le _).
Qed.

Lemma queue_sort_ascending q : ascending (py_sort ltb q).
Proof. apply ascending_iff, queue_sort_sorted. Qed.

Lemma queue_sort_Permutation q : py_sort ltb q ≡ₚ q.
Proof. apply py_sort_Permutation. Qed.

(** Whatever algorithm [list.sort] runs, it can only come to this list:
    the order is total and only equal tuples tie. *)
Lemma queue_sort_unique q q' :
  q' ≡ₚ q → StronglySorted le q' → q' = py_sort ltb q.
Proof.
  intros Hperm Hsorted.
  apply (StronglySorted_unique le); [done|apply queue_sort_sorted|].
  by rewrite Hperm, queue_sort_Permutation.
Qed.

(** On a queue that is in order, append-and-sort is an ordered insertion. *)
Lemma queue_sort_insert q r :
  ascending q → py_sort ltb (q ++ [r]) = insort ltb r q.
Proof.
  intros Hq. rewrite py_sort_snoc. f_equal.
  apply (py_sort_id ltb). by apply ascending_iff.
Qed.

Lemma queue_filter_ascending (P : PyTuple.t → Prop) `{!∀ x, Decision (P x)} q :
  ascending q → ascending (filter P q).
Proof.
  induction 1 as [|x q Hq IH Hx]; [constructor|].
  rewrite filter_cons. destruct (decide (P x)); [|done].
  constructor; [done|].
  apply Forall_forall. intros y [_ Hy]%list_elem_of_filter.
  by eapply Forall_forall in Hx.
Qed.

Lemma ascending_head_minimum q : ascending q → head q = ledger_minimum q.
Proof.
  induction 1 as [|x q Hq IH Hx]; [done|]. simpl.
  rewrite <- IH. destruct q as [|y q]; [done|]. simpl.
  apply Forall_cons in Hx as [Hxy _]. apply le_spec in Hxy.
  unfold le in Hxy. by rewrite Hxy.
Qed.

Lemma ascending_head_least q x y :
  ascending q → head q = Some x → y ∈ q → ts_then_id_le x y.
Proof.
  intros Hq Hx Hy. destruct Hq as [|z q Hq Hz]; [done|].
  simplify_eq/=. apply elem_of_cons in Hy as [->|Hy].
  - apply le_spec. apply (@reflexivity _ le _).
  - by eapply Forall_forall in Hz.
Qed.



End QueueFacts.

(** ** Running the methods *)

Ltac unfold_methods :=
  unfold update_clock, inc_clock, log, queue_append_sort, queue_remove, py_int.

Ltac unfold_monad :=
  unfold mbind, M_bind, mret, M_ret, get, modify, emit, raise, call.

Ltac run_method := unfold_methods; unfold_monad; simpl.

Lemma update_clock_run remote_ts s net :
  update_clock remote_ts (World s net) =
  (Return (Z.max (clock s) remote_ts + 1),
   World (set_clock (Z.max (clock s) remote_ts + 1) s) net, []).
Proof. reflexivity. Qed.

Lemma inc_clock_run s net :
  inc_clock (World s net) =
  (Return (clock s + 1), World (set_clock (clock s + 1) s) net, []).
Proof. reflexivity. Qed.

Lemma receive_reply_run ts from_id s net :
  receive_reply ts from_id (World s net) =
  let c := Z.max (clock s) ts + 1 in
  let replies := {[from_id]} ∪ replies_received s in
  (Return true,
   World (set_replies_received replies (set_clock c s)) net,
   [Log c (ReceivedReply from_id replies)]).
Proof. reflexivity. Qed.

Lemma receive_release_run ts from_id s net :
  receive_release ts from_id (World s net) =
  let c := Z.max (clock s) ts + 1 in
  let q := filter (λ x, x.2 ≠ from_id) (request_queue s) in
  (Return true,
   World (set_request_queue q (set_clock c s)) net,
   [Log c (ReceivedRelease from_id q)]).
Proof. reflexivity. Qed.

(** [receive_request] takes one of four ways. *)
Section ReceiveRequest.
Context (ts : Z) (from_id : string) (s : LamportNode) (net : list bool).
Let c := Z.max (clock s) ts + 1.
Let q := py_sort PyTuple.ltb (request_queue s ++ [(ts, from_id)]).
Let s1 := set_request_queue q (set_clock c s).

Lemma receive_request_reply_run url :
  reply_due ts from_id s → peers s !! from_id = Some url →
  receive_request ts from_id (World s net) =
  (Return true, World s1 (tail net),
   [Log c (ReceivedRequest from_id ts q);
    Call from_id url (receive_reply_rpc c (node_id s)) (hd true net);
    Log c (if hd true net then SentReply from_id else ErrorSendingReply from_id)]).
Proof.
  intros Hdue Hurl. unfold receive_request. run_method.
  destruct Hdue as [Hr|(own & Hown & Hlt)].
  - rewrite Hr. simpl. rewrite Hurl. simpl. by destruct (hd true net).
  - rewrite Hown. simpl. destruct (requesting s); simpl;
      rewrite ?Hlt; simpl; rewrite Hurl; simpl; by destruct (hd true net).
Qed.

Lemma receive_request_unknown_run :
  reply_due ts from_id s → peers s !! from_id = None →
  receive_request ts from_id (World s net) =
  (Return true, World s1 net,
   [Log c (ReceivedRequest from_id ts q); Log c (ErrorSendingReply from_id)]).
Proof.
  intros Hdue Hurl. unfold receive_request. run_method.
  destruct Hdue as [Hr|(own & Hown & Hlt)].
  - rewrite Hr. simpl. by rewrite Hurl.
  - rewrite Hown. simpl. destruct (requesting s); simpl;
      rewrite ?Hlt; simpl; by rewrite Hurl.
Qed.

Lemma receive_request_defer_run own :
  requesting s = true → own_request_ts s = Some own →
  PyTuple.ltb (ts, from_id) (own, node_id s) = false →
  receive_request ts from_id (World s net) =
  (Return true, World (set_deferred ({[from_id]} ∪ deferred s) s1) net,
   [Log c (ReceivedRequest from_id ts q); Log c (DeferredReply from_id)]).
Proof.
  intros Hr Hown Hlt. unfold receive_request. run_method.
  by rewrite Hr, Hown; simpl; rewrite Hlt.
Qed.

Lemma receive_request_raise_run :
  requesting s = true → own_request_ts s = None →
  receive_request ts from_id (World s net) =
  (Raise TypeError, World s1 net, [Log c (ReceivedRequest from_id ts q)]).
Proof.
  intros Hr Hown. unfold receive_request. run_method. by rewrite Hr, Hown.
Qed.

End ReceiveRequest.

(** ** Loops over peers *)

Lemma calls_app tr1 tr2 : calls (tr1 ++ tr2) = calls tr1 ++ calls tr2.
Proof. apply omap_app. Qed.

Lemma failures_logged_app tr1 tr2 :
  failures_logged tr1 = true → failures_logged tr2 = true →
  failures_logged (tr1 ++ tr2) = true.
Proof.
  intros H1 H2. induction tr1 as [|e tr1 IH]; [done|].
  destruct e as [pid url r [|]| | |]; simpl in *; auto.
  destruct tr1 as [|[| clk m | |] tr1]; try done. simpl in *.
  apply andb_true_iff in H1 as [Hm Hrest]. rewrite Hm. simpl. by apply IH.
Qed.

Lemma for_each_trace {A} (l : list A) (body : A → M unit) (s : LamportNode)
    (Q : A → list event → Prop) :
  (∀ x net, ∃ net' tr,
      body x (World s net) = (Return tt, World s net', tr) ∧ Q x tr) →
  ∀ net, ∃ net' trs,
    for_each l body (World s net) = (Return tt, World s net', concat trs)
    ∧ Forall2 Q l trs.
Proof.
  intros Hbody. induction l as [|x l IH]; intros net.
  - exists net, []. by split; [|constructor].
  - destruct (Hbody x net) as (net1 & tr & Hx & HQ).
    destruct (IH net1) as (net2 & trs & Hl & HQs).
    exists net2, (tr :: trs). split; [|by constructor].
    simpl. unfold mbind, M_bind. by rewrite Hx, Hl.
Qed.

Lemma Forall2_calls {A} (l : list A) trs (f : A → list (string * string * rpc)) :
  Forall2 (λ x tr, calls tr = f x ∧ failures_logged tr = true) l trs →
  calls (concat trs) = concat (f <$> l) ∧ failures_logged (concat trs) = true.
Proof.
  induction 1 as [|x tr l trs [Hc Hf] _ [IHc IHf]]; [done|]. simpl.
  rewrite calls_app, Hc, IHc. split; [done|]. by apply failures_logged_app.
Qed.

(** ** The two broadcasts *)

Lemma concat_singletons {A B} (f : A → B) (l : list A) :
  concat ((λ x, [f x]) <$> l) = f <$> l.
Proof. induction l as [|x l IH]; [done|]. csimpl. by rewrite IH. Qed.

Lemma concat_options {A B} (f : A → option B) (l : list A) :
  concat ((λ x, option_list (f x)) <$> l) = omap f l.
Proof.
  induction l as [|x l IH]; [done|]. csimpl. rewrite IH. by destruct (f x).
Qed.

(** Runs the loop the goal is about to take, given what one iteration
    writes. *)
Ltac run_loop Q net' trs Hrun HQ :=
  match goal with
  | |- context [for_each ?l ?b (World ?s0 ?n)] =>
      let Hloop := fresh "Hloop" in
      pose proof (for_each_trace l b s0 Q) as Hloop;
      lapply Hloop;
      [ clear Hloop; intros Hloop;
        destruct (Hloop n) as (net' & trs & Hrun & HQ); clear Hloop;
        rewrite Hrun
      | clear Hloop ]
  end.

Lemma send_request_to_all_run s net :
  let c := clock s + 1 in
  let q := py_sort PyTuple.ltb (request_queue s ++ [(c, node_id s)]) in
  let s1 := set_request_queue q (set_own_request_ts (Some c) (set_clock c s)) in
  ∃ net' tr,
    send_request_to_all (World s net) =
      (Return tt, World s1 net', Log c (BroadcastingRequest c) :: tr)
    ∧ calls tr = request_calls s c
    ∧ failures_logged tr = true.
Proof.
  intros c q s1. unfold send_request_to_all. run_method. fold c q s1.
  run_loop (λ (kv : string * string) tr,
      calls tr = [(kv.1, kv.2, receive_request_rpc c (node_id s))]
      ∧ failures_logged tr = true) net' trs Hrun HQ.
  - apply Forall2_calls in HQ as [Hc Hf]. rewrite concat_singletons in Hc.
    by exists net', (concat trs).
  - intros [pid url] net0. run_method.
    destruct (hd true net0); eexists _, _; (split; [reflexivity|]); simpl;
      rewrite ?String.eqb_refl; done.
Qed.

Lemma send_release_to_all_run s net :
  let c := clock s + 1 in
  let q := filter (λ x, x.2 ≠ node_id s) (request_queue s) in
  let s1 := set_deferred ∅ (set_request_queue q (set_clock c s)) in
  ∃ net' tr1 tr2,
    send_release_to_all (World s net) =
      (Return tt, World s1 net', Log c (BroadcastingRelease c) :: tr1 ++ tr2)
    ∧ calls tr1 = release_calls s c
    ∧ calls tr2 = deferred_reply_calls s c
    ∧ failures_logged tr1 = true
    ∧ failures_logged tr2 = true.
Proof.
  intros c q s1. unfold send_release_to_all. run_method. fold c q.
  set (s0 := set_request_queue q (set_clock c s)).
  run_loop (λ (kv : string * string) tr,
      calls tr = [(kv.1, kv.2, receive_release_rpc c (node_id s))]
      ∧ failures_logged tr = true) net1 trs1 Hrun1 HQ1.
  - simpl. fold s1.
    run_loop (λ (pid : string) tr,
        calls tr = option_list ((λ url, (pid, url, receive_reply_rpc c (node_id s)))
                                  <$> peers s !! pid)
        ∧ failures_logged tr = true) net2 trs2 Hrun2 HQ2.
    + apply Forall2_calls in HQ1 as [Hc1 Hf1]. rewrite concat_singletons in Hc1.
      apply Forall2_calls in HQ2 as [Hc2 Hf2]. rewrite concat_options in Hc2.
      by exists net2, (concat trs1), (concat trs2).
    + intros pid net0. run_method. destruct (peers s !! pid) as [url|]; simpl.
      * destruct (hd true net0); eexists _, _; (split; [reflexivity|]); simpl;
          rewrite ?String.eqb_refl; done.
      * eexists _, _. split; [reflexivity|]. done.
  - intros [pid url] net0. run_method.
    destruct (hd true net0); eexists _, _; (split; [reflexivity|]); simpl;
      rewrite ?String.eqb_refl; done.
Qed.

(** ** The acquisition cycle *)

Lemma begin_cycle_run s net :
  let c := clock s + 1 in
  let q := py_sort PyTuple.ltb (request_queue s ++ [(c, node_id s)]) in
  let s1 := set_request_queue q (set_own_request_ts (Some c) (set_clock c
              (set_requesting true (set_replies_received ∅ s)))) in
  ∃ net' tr,
    begin_cycle (World s net) =
      (Return tt, World s1 net',
       Log c (BroadcastingRequest c) :: tr ++ [Log c WaitingForReplies])
    ∧ calls tr = request_calls s c
    ∧ failures_logged tr = true.
Proof.
  intros c q s1.
  destruct (send_request_to_all_run (set_requesting true (set_replies_received ∅ s)) net)
    as (net' & tr & Hrun & Hc & Hf).
  exists net', tr. split; [|done].
  unfold begin_cycle. unfold_monad. simpl. unfold mbind, M_bind in Hrun.
  by rewrite Hrun.
Qed.

Lemma end_cycle_run s net :
  let c := clock s + 1 in
  let q := filter (λ x, x.2 ≠ node_id s) (request_queue s) in
  let s1 := set_deferred ∅ (set_request_queue q (set_clock c
              (set_replies_received ∅ (set_requesting false s)))) in
  ∃ net' tr1 tr2,
    end_cycle (World s net) =
      (Return tt, World s1 net', Log c (BroadcastingRelease c) :: tr1 ++ tr2)
    ∧ calls tr1 = release_calls s c
    ∧ calls tr2 = deferred_reply_calls s c
    ∧ failures_logged tr1 = true
    ∧ failures_logged tr2 = true.
Proof.
  intros c q s1.
  destruct (send_release_to_all_run (set_replies_received ∅ (set_requesting false s)) net)
    as (net' & tr1 & tr2 & Hrun & H).
  exists net', tr1, tr2. split; [|done].
  unfold end_cycle. unfold_monad. simpl. unfold mbind, M_bind in Hrun.
  by rewrite Hrun.
Qed.

Lemma can_enter_cs_run s net :
  can_enter_cs (World s net) =
  match request_queue s, own_request_ts s with
  | first :: _, None => (Raise TypeError, World s net, [])
  | [], _ =>
      (Return (if requesting s then
                 if Nat.eqb (size (replies_received s)) (size (peers s))
                 then PyList [] else PyBool false
               else PyBool false), World s net, [])
  | first :: _, Some own =>
      (Return (if requesting s then
                 if Nat.eqb (size (replies_received s)) (size (peers s))
                 then PyBool (PyTuple.eqb first (own, node_id s)) else PyBool false
               else PyBool false), World s net, [])
  end.
Proof.
  unfold can_enter_cs. run_method.
  destruct (request_queue s) as [|first rest], (own_request_ts s) as [own|],
    (requesting s), (Nat.eqb (size (replies_received s)) (size (peers s)));
    reflexivity.
Qed.

Lemma can_enter_iff s :
  can_enter s = true ↔
  requesting s = true
  ∧ size (replies_received s) = size (peers s)
  ∧ ∃ own, own_request_ts s = Some own
           ∧ head (request_queue s) = Some (own, node_id s).
Proof.
  unfold can_enter, result_of. rewrite can_enter_cs_run.
  destruct (request_queue s) as [|first rest], (own_request_ts s) as [own|],
    (requesting s), (Nat.eqb_spec (size (replies_received s)) (size (peers s)));
    simpl; try (split; [done|]; intros (? & ? & ? & ? & ?); done).
  rewrite PyTupleFacts.eqb_eq. split.
  - intros ->. eauto.
  - intros (_ & _ & own' & [= <-] & [= ->]). done.
Qed.

Lemma critical_section_enter_run s net :
  critical_section_enter (World s net) =
  (Return tt, World s net,
   [Log (clock s) EnteringCriticalSection; LedgerEntered (node_id s)]).
Proof. reflexivity. Qed.

Lemma critical_section_exit_run s net :
  critical_section_exit (World s net) =
  (Return tt, World s net,
   [LedgerExiting (node_id s); Log (clock s) ExitingCriticalSection]).
Proof. reflexivity. Qed.

Lemma receive_request_node ts from_id s net :
  let c := Z.max (clock s) ts + 1 in
  let q := py_sort PyTuple.ltb (request_queue s ++ [(ts, from_id)]) in
  ∃ d, node_after (receive_request ts from_id) net s =
         set_deferred d (set_request_queue q (set_clock c s))
       ∧ (d = deferred s ∨ (requesting s = true ∧ d = {[from_id]} ∪ deferred s)).
Proof.
  intros c q. unfold node_after.
  destruct (requesting s) eqn:Hr.
  - destruct (own_request_ts s) as [own|] eqn:Hown.
    + destruct (PyTuple.ltb (ts, from_id) (own, node_id s)) eqn:Hlt.
      * assert (reply_due ts from_id s) as Hdue by (right; eauto).
        destruct (peers s !! from_id) as [url|] eqn:Hurl.
        -- rewrite (receive_request_reply_run _ _ _ _ url Hdue Hurl). eauto.
        -- rewrite (receive_request_unknown_run _ _ _ _ Hdue Hurl). eauto.
      * rewrite (receive_request_defer_run _ _ _ _ own Hr Hown Hlt). eauto.
    + rewrite (receive_request_raise_run _ _ _ _ Hr Hown). eauto.
  - assert (reply_due ts from_id s) as Hdue by (by left).
    destruct (peers s !! from_id) as [url|] eqn:Hurl.
    + rewrite (receive_request_reply_run _ _ _ _ url Hdue Hurl). eauto.
    + rewrite (receive_request_unknown_run _ _ _ _ Hdue Hurl). eauto.
Qed.

(** ** What every reachable state satisfies *)

Lemma init_consistent id cfg : consistent id cfg (init id cfg).
Proof.
  unfold consistent, init; simpl. repeat split; try done. constructor.
Qed.

Lemma step_consistent id cfg a p p' :
  consistent id cfg p → step a p = Some p' → consistent id cfg p'.
Proof.
  destruct p as [ph s tr]. unfold consistent; simpl.
  intros (Hid & Hpeers & Hq & Hidle & Hbusy) Hstep.
  destruct a as [ts f net|ts f|ts f|net| |net]; simpl in Hstep.
  - unfold run_method in Hstep; simpl in Hstep.
    destruct (receive_request_node ts f s net) as (d & Hnode & Hd).
    unfold node_after in Hnode.
    destruct (receive_request ts f (World s net)) as [[o w] tr'] eqn:Hrun.
    simpl in *. simplify_eq/=. rewrite Hnode; simpl.
    split; [done|]. split; [done|]. split; [apply queue_sort_ascending|]. split.
    + intros Hph. destruct (Hidle Hph) as [Hr0 Hd0]. split; [done|].
      destruct Hd as [->|[Hr ->]]; [done|congruence].
    + intros Hph. by apply Hbusy.
  - simplify_eq/=. repeat split; try done; by (apply Hidle || apply Hbusy).
  - simplify_eq/=. repeat split; try done; try by (apply Hidle || apply Hbusy).
    by apply queue_filter_ascending.
  - destruct ph; try done. unfold run_method in Hstep; simpl in Hstep.
    destruct (begin_cycle_run s net) as (net' & tr' & Hrun & _).
    rewrite Hrun in Hstep. simplify_eq/=.
    repeat split; try done. apply queue_sort_ascending.
  - destruct ph; try done. unfold run_method in Hstep; simpl in Hstep.
    rewrite can_enter_cs_run in Hstep.
    destruct (Hbusy ltac:(done)) as [Hr [own Hown]].
    rewrite Hown in Hstep.
    destruct (request_queue s) as [|first rest] eqn:Hqueue; simpl in Hstep;
      destruct (truthy _); simplify_eq/=; rewrite ?Hqueue;
      repeat split; try done; eauto.
  - destruct ph; try done. unfold run_method in Hstep; simpl in Hstep.
    destruct (end_cycle_run s net) as (net' & tr1 & tr2 & Hrun & _).
    unfold mbind, M_bind in Hstep. rewrite critical_section_exit_run in Hstep.
    rewrite Hrun in Hstep. simplify_eq/=.
    repeat split; try done. by apply queue_filter_ascending.
Qed.

Lemma reachable_consistent id cfg p : reachable id cfg p → consistent id cfg p.
Proof.
  induction 1 as [|a p p' _ IH Hstep]; [apply init_consistent|].
  by eapply step_consistent.
Qed.

Lemma run_reachable id cfg acts p p' :
  reachable id cfg p → run acts p = Some p' → reachable id cfg p'.
Proof.
  revert p. induction acts as [|a acts IH]; intros p Hp Hrun; simpl in Hrun.
  - by simplify_eq.
  - destruct (step a p) as [p1|] eqn:Hstep; [|done].
    eapply IH; [|exact Hrun]. by eapply reach_step.
Qed.

(** * The logical clock *)

(** C4: from a clock value [c], [update_clock(r)] sets the clock to
    [max(c, r) + 1] and returns it, a value above both [c] and [r];
    [inc_clock] sets the clock to [c + 1] and returns it.  Either way the
    clock strictly increases. *)
Theorem clock_operations_strictly_increase
    (s : LamportNode) (net : list bool) (remote_ts : Z) :
  let c := clock s in
  (result_of (update_clock remote_ts) net s = Return (Z.max c remote_ts + 1)
   ∧ clock (node_after (update_clock remote_ts) net s) = Z.max c remote_ts + 1
   ∧ c < clock (node_after (update_clock remote_ts) net s)
   ∧ remote_ts < clock (node_after (update_clock remote_ts) net s))
  ∧ (result_of inc_clock net s = Return (c + 1)
     ∧ clock (node_after inc_clock net s) = c + 1
     ∧ c < clock (node_after inc_clock net s)).
Proof.
  unfold result_of, node_after. rewrite update_clock_run, inc_clock_run. simpl.
  repeat split; lia.
Qed.

(** No step of the node lowers its clock. *)
Lemma step_clock_monotone a p p' :
  step a p = Some p' → clock (node_of p) ≤ clock (node_of p').
Proof.
  destruct p as [ph s tr]. intros Hstep.
  destruct a as [ts f net|ts f|ts f|net| |net]; simpl in Hstep.
  - destruct (receive_request_node ts f s net) as (d & Hnode & _).
    unfold run_method in Hstep. unfold node_after in Hnode. simpl in *.
    destruct (receive_request ts f (World s net)) as [[o w] tr'].
    simplify_eq/=. rewrite Hnode. simpl. lia.
  - simplify_eq/=. lia.
  - simplify_eq/=. lia.
  - destruct ph; try done. unfold run_method in Hstep; simpl in Hstep.
    destruct (begin_cycle_run s net) as (net' & tr' & Hrun & _).
    rewrite Hrun in Hstep. simplify_eq/=. lia.
  - destruct ph; try done. unfold run_method in Hstep; simpl in Hstep.
    rewrite can_enter_cs_run in Hstep.
    destruct (request_queue s) as [|first rest], (own_request_ts s) as [own|];
      simpl in Hstep; try done; destruct (truthy _); by simplify_eq/=.
  - destruct ph; try done. unfold run_method in Hstep; simpl in Hstep.
    destruct (end_cycle_run s net) as (net' & tr1 & tr2 & Hrun & _).
    unfold mbind, M_bind in Hstep. rewrite critical_section_exit_run in Hstep.
    rewrite Hrun in Hstep. simplify_eq/=. lia.
Qed.

(** * REPLY and RELEASE *)

(** C6: handling the same REPLY, or the same RELEASE, a second time leaves
    [request_queue] and [replies_received] as the first time left them; a
    RELEASE from a node with no record in the queue leaves the queue as it
    was. *)
Theorem reply_and_release_idempotent
    (s : LamportNode) (ts : Z) (from_id : string) (net1 net2 : list bool) :
  let reply1 := node_after (receive_reply ts from_id) net1 s in
  let reply2 := node_after (receive_reply ts from_id) net2 reply1 in
  let release1 := node_after (receive_release ts from_id) net1 s in
  let release2 := node_after (receive_release ts from_id) net2 release1 in
  (request_queue reply2 = request_queue reply1
   ∧ replies_received reply2 = replies_received reply1)
  ∧ (request_queue release2 = request_queue release1
     ∧ replies_received release2 = replies_received release1)
  ∧ (records_of from_id (request_queue s) = [] →
     request_queue release1 = request_queue s).
Proof.
  unfold node_after. rewrite !receive_reply_run, !receive_release_run. simpl.
  repeat split.
  - rewrite (assoc_L (∪)). by rewrite (idemp_L (∪) {[from_id]}).
  - rewrite list_filter_filter. apply list_filter_iff.
    intros x. split; [by intros [? ?]|by intros ?].
  - unfold records_of. intros Hnone.
    induction (request_queue s) as [|x q IH]; [done|].
    rewrite filter_cons in Hnone. destruct (decide (x.2 = from_id)); [done|].
    rewrite filter_cons_True; [|done]. f_equal. by apply IH.
Qed.

Lemma reply_and_release_idempotent_witness :
  records_of "3" (request_queue node1_heard_request) = []
  ∧ request_queue (node_after (receive_release 4 "3") [] node1_heard_request)
    = request_queue node1_heard_request.
Proof.
  split; [reflexivity|].
  apply (reply_and_release_idempotent node1_heard_request 4 "3" [] []).
  reflexivity.
Defined.

(** * Incoming REQUEST *)

(** The [requesting] flag is up from the start of a cycle until the critical
    section has been left. *)
Lemma reachable_requesting_flag id cfg p :
  reachable id cfg p →
  (requesting (node_of p) = false ↔ phase_of p = Idle)
  ∧ (requesting (node_of p) = true → is_Some (own_request_ts (node_of p))).
Proof.
  intros (_ & _ & _ & Hidle & Hbusy)%reachable_consistent.
  destruct (decide (phase_of p = Idle)) as [Hph|Hph].
  - destruct (Hidle Hph) as [Hr _]. rewrite Hr. done.
  - destruct (Hbusy Hph) as [Hr Hown]. rewrite Hr. done.
Qed.

(** C2, as the code has it: on [REQUEST(ts, from_id)] from a peer, a node
    whose [requesting] flag is down sends it one REPLY at once, carrying the
    clock as [update_clock] left it.  A node whose flag is up does the same
    exactly when [(ts, from_id)] is strictly before its own
    [(own_request_ts, node_id)], timestamp first and node id second;
    otherwise it sends nothing and adds [from_id] to [deferred].  The flag is
    down when the node is at rest and up while it waits and while it is in
    its critical section. *)
Theorem receive_request_replies_or_defers
    (s : LamportNode) (ts : Z) (from_id url : string) (net : list bool) :
  peers s !! from_id = Some url →
  let s' := node_after (receive_request ts from_id) net s in
  let sent := calls (trace_after (receive_request ts from_id) net s) in
  let returned := result_of (receive_request ts from_id) net s in
  let reply := (from_id, url, receive_reply_rpc (Z.max (clock s) ts + 1) (node_id s)) in
  (requesting s = false →
     sent = [reply] ∧ deferred s' = deferred s ∧ returned = Return true)
  ∧ (∀ own, requesting s = true → own_request_ts s = Some own →
       (ts_then_id_lt (ts, from_id) (own, node_id s) →
          sent = [reply] ∧ deferred s' = deferred s ∧ returned = Return true)
       ∧ (¬ ts_then_id_lt (ts, from_id) (own, node_id s) →
          sent = [] ∧ deferred s' = {[from_id]} ∪ deferred s
          ∧ returned = Return true))
  ∧ (∀ id cfg ph tr, reachable id cfg (Proc ph s tr) →
       (requesting s = false ↔ ph = Idle)
       ∧ (requesting s = true → is_Some (own_request_ts s))).
Proof.
  intros Hurl. unfold node_after, trace_after, result_of. split; [|split].
  - intros Hr.
    rewrite (receive_request_reply_run _ _ _ _ url) by first [done | by left].
    done.
  - intros own Hr Hown. split.
    + intros Hlt%PyTupleFacts.ltb_spec.
      rewrite (receive_request_reply_run _ _ _ _ url) by first [done | right; by eauto].
      done.
    + intros Hlt. rewrite <- PyTupleFacts.ltb_spec in Hlt.
      apply not_true_is_false in Hlt.
      by rewrite (receive_request_defer_run _ _ _ _ own Hr Hown Hlt).
  - intros id cfg ph tr Hreach.
    apply (reachable_requesting_flag id cfg _ Hreach).
Qed.

Lemma receive_request_replies_or_defers_witness :
  peers node1 !! "2"%string = Some "http://localhost:8002"%string
  ∧ requesting node1 = false
  ∧ calls (trace_after (receive_request 1 "2") [false] node1)
    = [("2"%string, "http://localhost:8002"%string, receive_reply_rpc 2 "1")]
  ∧ deferred (node_after (receive_request 1 "2") [false] node1) = deferred node1
  ∧ result_of (receive_request 1 "2") [false] node1 = Return true.
Proof.
  split; [reflexivity|]. split; [reflexivity|].
  apply (receive_request_replies_or_defers
           node1 1 "2" "http://localhost:8002" [false]); reflexivity.
Defined.

(** C2, as stated, fails: node 1 has left its wait loop and is in
    [critical_section], with [requesting] still [True] and its own request at
    timestamp 1; the request [(5, "2")] of peer 2 gets no REPLY and node 2
    goes to [deferred]. *)
Lemma request_deferred_in_critical_section :
  (phase_of <$> node1_in_critical_section) = Some InCriticalSection
  ∧ ((λ p, requesting (node_of p)) <$> node1_in_critical_section) = Some true
  ∧ ((λ p, own_request_ts (node_of p)) <$> node1_in_critical_section)
    = Some (Some 1)
  ∧ ((λ p, peers (node_of p) !! "2"%string) <$> node1_in_critical_section)
    = Some (Some "http://localhost:8002"%string)
  ∧ ((λ p, calls (trace_after (receive_request 5 "2") [] (node_of p)))
       <$> node1_in_critical_section) = Some []
  ∧ ((λ p, deferred (node_after (receive_request 5 "2") [] (node_of p)))
       <$> node1_in_critical_section) = Some {["2"%string]}.
Proof. by vm_compute. Qed.

(** Node 1, requesting with timestamp 1, defers the request [(5, "2")]. *)
Example node1_defers_later_request :
  requesting (node_after begin_cycle [] node1) = true
  ∧ own_request_ts (node_after begin_cycle [] node1) = Some 1
  ∧ calls (trace_after (receive_request 5 "2") [] (node_after begin_cycle [] node1)) = []
  ∧ deferred node1_deferring = {["2"%string]}.
Proof. vm_compute. repeat split; reflexivity. Qed.

(** * The request queue *)

(** C7: every method that changes [request_queue] leaves it in ascending
    order, timestamp first and node id second, so that its first entry is
    its least: the two that insert ([receive_request] and
    [send_request_to_all]) and the two that remove ([receive_release] and
    [send_release_to_all]). *)
Theorem queue_mutations_keep_order
    (s : LamportNode) (ts : Z) (from_id : string) (net : list bool) :
  ascending (request_queue s) →
  minimum_first (request_queue (node_after (receive_request ts from_id) net s))
  ∧ minimum_first (request_queue (node_after send_request_to_all net s))
  ∧ minimum_first (request_queue (node_after (receive_release ts from_id) net s))
  ∧ minimum_first (request_queue (node_after send_release_to_all net s)).
Proof.
  intros Hq. unfold minimum_first.
  assert (∀ q, ascending q → ascending q ∧ head q = ledger_minimum q) as Hmin
    by (intros q Ha; split; [done|by apply ascending_head_minimum]).
  split; [|split; [|split]]; apply Hmin; clear Hmin.
  - destruct (receive_request_node ts from_id s net) as (d & -> & _). simpl.
    apply queue_sort_ascending.
  - destruct (send_request_to_all_run s net) as (net' & tr & Hrun & _).
    unfold node_after. rewrite Hrun. simpl. apply queue_sort_ascending.
  - unfold node_after. rewrite receive_release_run. simpl.
    by apply queue_filter_ascending.
  - destruct (send_release_to_all_run s net) as (net' & tr1 & tr2 & Hrun & _).
    unfold node_after. rewrite Hrun. simpl. by apply queue_filter_ascending.
Qed.

Lemma queue_mutations_keep_order_witness :
  ascending (request_queue node1_deferring)
  ∧ minimum_first (request_queue (node_after (receive_request 6 "2") [] node1_deferring))
  ∧ minimum_first (request_queue (node_after send_request_to_all [] node1_deferring))
  ∧ minimum_first (request_queue (node_after (receive_release 6 "2") [] node1_deferring))
  ∧ minimum_first (request_queue (node_after send_release_to_all [] node1_deferring)).
Proof.
  assert (ascending (request_queue node1_deferring)) as Hq.
  { apply PyTupleFacts.ascending_iff. vm_compute. repeat constructor. }
  split; [exact Hq|].
  exact (queue_mutations_keep_order node1_deferring 6 "2" [] Hq).
Defined.

(** The queue of a reachable state is in order, and its first entry is its
    least. *)
Lemma reachable_minimum_first id cfg p :
  reachable id cfg p → minimum_first (request_queue (node_of p)).
Proof.
  intros (_ & _ & Hq & _)%reachable_consistent.
  split; [done|by apply ascending_head_minimum].
Qed.




(** * The start of a cycle *)





(** * Entering the critical section *)

(** When only peers have replied, counting the replies is asking for every
    peer. *)
Lemma peers_counted (s : LamportNode) :
  replies_received s ⊆ dom (peers s) →
  size (replies_received s) = size (peers s) ↔ dom (peers s) ⊆ replies_received s.
Proof.
  intros Hsub. rewrite <- (size_dom (peers s)). split.
  - intros Hsize. rewrite (set_subseteq_size_eq _ _ Hsub); [done|].
    by rewrite Hsize.
  - intros Hsup. f_equal. apply set_eq. intros x. split; [apply Hsub|apply Hsup].
Qed.

(** C1, as the code has it: in a queue that is in order, [can_enter_cs]
    returns a truthy value exactly when the node is requesting, there are as
    many ids in [replies_received] as there are peers, and the least record
    of the queue is the node's own; the wait loop of [request_cs_and_wait]
    goes on to the critical section exactly then.  The count of replies is
    the same as having every peer in [replies_received] as long as
    [replies_received] holds ids of peers only. *)
Theorem can_enter_cs_exactly_when (s : LamportNode) :
  ascending (request_queue s) →
  (can_enter s = true ↔
     requesting s = true
     ∧ size (replies_received s) = size (peers s)
     ∧ ∃ own, own_request_ts s = Some own
              ∧ ledger_minimum (request_queue s) = Some (own, node_id s))
  ∧ (∀ tr, can_enter s = true ↔
           ∃ p', step Poll (Proc Requesting s tr) = Some p'
                 ∧ phase_of p' = InCriticalSection)
  ∧ (replies_received s ⊆ dom (peers s) →
     can_enter s = true ↔ stated_entry_condition s).
Proof.
  intros Hq.
  assert (can_enter s = true ↔
     requesting s = true
     ∧ size (replies_received s) = size (peers s)
     ∧ ∃ own, own_request_ts s = Some own
              ∧ ledger_minimum (request_queue s) = Some (own, node_id s)) as Hiff.
  { rewrite can_enter_iff. by rewrite (ascending_head_minimum _ Hq). }
  split; [exact Hiff|]. split.
  - intros tr. unfold can_enter, result_of. simpl. unfold run_method. simpl.
    rewrite can_enter_cs_run.
    destruct (request_queue s) as [|first rest], (own_request_ts s) as [own|];
      simpl; try (split; [done|by intros (p' & ? & ?)]);
      destruct (truthy _); simpl; split; try done; eauto;
      try (intros (p' & ? & ?); by simplify_eq/=).
  - intros Hsub. rewrite Hiff. unfold stated_entry_condition.
    by rewrite (peers_counted s Hsub).
Qed.

Lemma can_enter_cs_exactly_when_witness :
  ascending (request_queue node1_foreign_reply)
  ∧ (can_enter node1_foreign_reply = true ↔
       requesting node1_foreign_reply = true
       ∧ size (replies_received node1_foreign_reply) = size (peers node1_foreign_reply)
       ∧ ∃ own, own_request_ts node1_foreign_reply = Some own
                ∧ ledger_minimum (request_queue node1_foreign_reply)
                  = Some (own, node_id node1_foreign_reply)).
Proof.
  assert (ascending (request_queue node1_foreign_reply)) as Hq.
  { apply PyTupleFacts.ascending_iff. vm_compute. repeat constructor. }
  split; [exact Hq|].
  exact (proj1 (can_enter_cs_exactly_when node1_foreign_reply Hq)).
Defined.

(** C1, as stated, fails: node 1 has the replies of node 2 and of an id that
    is no peer; peer 3 has not replied, and [can_enter_cs] returns [True]:
    the next turn of the wait loop enters the critical section. *)
Lemma entry_without_reply_of_a_peer :
  result_of can_enter_cs [] node1_foreign_reply = Return (PyBool true)
  ∧ is_Some (peers node1_foreign_reply !! "3"%string)
  ∧ ("3"%string ∉ replies_received node1_foreign_reply)
  ∧ ¬ stated_entry_condition node1_foreign_reply
  ∧ (phase_of <$> run [StartCycle []; DeliverReply 2 "2"; DeliverReply 2 "9"; Poll]
                      (init "1" three_nodes))
    = Some InCriticalSection.
Proof.
  assert ("3"%string ∉ replies_received node1_foreign_reply) as Hnot.
  { intros Hin. apply (bool_decide_pack _) in Hin. by vm_compute in Hin. }
  assert (is_Some (peers node1_foreign_reply !! "3"%string)) as Hpeer.
  { eexists. vm_compute. reflexivity. }
  split; [by vm_compute|]. split; [exact Hpeer|]. split; [exact Hnot|].
  split; [|by vm_compute].
  intros (_ & Hall & _). apply Hnot, Hall. by apply elem_of_dom.
Qed.

(** C10, as the code has it: when [requesting] is [False] or the queue is
    empty, [can_enter_cs] returns no truthy value, whatever
    [replies_received] holds, and the wait loop does not go on to the
    critical section; what it returns is falsy, as long as [own_request_ts]
    has been set or the queue is empty.  A truthy value means the node is
    requesting and has its own record in the queue. *)
Theorem can_enter_cs_falsy_outside_cycle (s : LamportNode) (net : list bool) :
  requesting s = false ∨ request_queue s = [] →
  (∀ v, result_of can_enter_cs net s = Return v → truthy v = false)
  ∧ (is_Some (own_request_ts s) ∨ request_queue s = [] →
     ∃ v, result_of can_enter_cs net s = Return v ∧ truthy v = false)
  ∧ can_enter s = false
  ∧ (∀ tr p', step Poll (Proc Requesting s tr) = Some p' →
              phase_of p' = Requesting).
Proof.
  intros Hout. unfold can_enter, result_of, step, run_method. simpl.
  rewrite !can_enter_cs_run.
  destruct (request_queue s) as [|first rest] eqn:Hqueue,
    (own_request_ts s) as [own|] eqn:Hown,
    (requesting s) eqn:Hr,
    (Nat.eqb (size (replies_received s)) (size (peers s)));
    simpl; try (by destruct Hout);
    (split; [by intros v [= <-]|]);
    (split; [intros H; try (by eexists); by destruct H as [[? ?]|?]|]);
    (split; [done|]); intros tr p' Hp; by simplify_eq/=.
Qed.

Lemma can_enter_cs_falsy_outside_cycle_witness :
  (requesting node1_late_deferral = false ∨ request_queue node1_late_deferral = [])
  ∧ can_enter node1_late_deferral = false.
Proof.
  split; [left; reflexivity|].
  apply (can_enter_cs_falsy_outside_cycle node1_late_deferral []).
  left; reflexivity.
Defined.

(** A truthy [can_enter_cs] means an active cycle with the node's own record
    in the queue. *)
Lemma can_enter_own_record (s : LamportNode) :
  can_enter s = true →
  requesting s = true
  ∧ ∃ own, own_request_ts s = Some own ∧ (own, node_id s) ∈ request_queue s.
Proof.
  intros (Hr & _ & own & Hown & Hhead)%can_enter_iff. split; [done|].
  exists own. split; [done|]. destruct (request_queue s); simplify_eq/=.
  apply list_elem_of_here.
Qed.

(** C10, as stated, fails: node 1 has never requested and has heard a request
    of node 2; [requesting] is [False], and [can_enter_cs] raises
    [TypeError] at [int(self.own_request_ts)] instead of returning. *)
Lemma can_enter_cs_raises_before_first_request :
  requesting node1_heard_request = false
  ∧ own_request_ts node1_heard_request = None
  ∧ request_queue node1_heard_request = [(1, "2"%string)]
  ∧ result_of can_enter_cs [] node1_heard_request = Raise TypeError
  ∧ ¬ (∃ v, result_of can_enter_cs [] node1_heard_request = Return v
            ∧ truthy v = false).
Proof.
  assert (result_of can_enter_cs [] node1_heard_request = Raise TypeError) as Hraise
    by (by vm_compute).
  repeat split; try by vm_compute.
  intros (v & Hv & _). rewrite Hraise in Hv. discriminate.
Qed.

(** * The end of a cycle *)






(** Node 1 leaves the critical section with node 2 deferred: RELEASE goes to
    both peers with the new clock value 7, then the REPLY to node 2. *)
Example node1_cycle_end :
  calls (trace_after end_cycle [] node1_deferring)
  = [("3", "http://localhost:8003", receive_release_rpc 7 "1");
     ("2", "http://localhost:8002", receive_release_rpc 7 "1");
     ("2", "http://localhost:8002", receive_reply_rpc 7 "1")]%string.
Proof. by vm_compute. Qed.

(** * Failed sends *)

(** C9: whatever RPCs fail, [receive_request], [send_request_to_all],
    [send_release_to_all] and the two halves of the cycle built on them end
    with the node as they do when every RPC succeeds, and return as they do
    then: a failure is not raised to the caller.  Each failed RPC is followed
    at once by its error line in the log. *)
Theorem send_failures_change_nothing
    (s : LamportNode) (ts : Z) (from_id : string) (net : list bool) :
  (node_after (receive_request ts from_id) net s
     = node_after (receive_request ts from_id) [] s
   ∧ result_of (receive_request ts from_id) net s
     = result_of (receive_request ts from_id) [] s
   ∧ (reply_due ts from_id s →
      result_of (receive_request ts from_id) net s = Return true)
   ∧ failures_logged (trace_after (receive_request ts from_id) net s) = true)
  ∧ (node_after send_request_to_all net s = node_after send_request_to_all [] s
     ∧ result_of send_request_to_all net s = Return tt
     ∧ failures_logged (trace_after send_request_to_all net s) = true)
  ∧ (node_after send_release_to_all net s = node_after send_release_to_all [] s
     ∧ result_of send_release_to_all net s = Return tt
     ∧ failures_logged (trace_after send_release_to_all net s) = true)
  ∧ (node_after begin_cycle net s = node_after begin_cycle [] s
     ∧ result_of begin_cycle net s = Return tt
     ∧ failures_logged (trace_after begin_cycle net s) = true)
  ∧ (node_after end_cycle net s = node_after end_cycle [] s
     ∧ result_of end_cycle net s = Return tt
     ∧ failures_logged (trace_after end_cycle net s) = true).
Proof.
  split; [|split; [|split; [|split]]].
  - unfold node_after, result_of, trace_after.
    destruct (requesting s) eqn:Hr.
    + destruct (own_request_ts s) as [own|] eqn:Hown.
      * destruct (PyTuple.ltb (ts, from_id) (own, node_id s)) eqn:Hlt.
        -- assert (reply_due ts from_id s) as Hdue by (right; eauto).
           destruct (peers s !! from_id) as [url|] eqn:Hurl.
           ++ rewrite !(receive_request_reply_run _ _ _ _ url Hdue Hurl). simpl.
              repeat split. destruct net as [|[|] net]; simpl;
                rewrite ?String.eqb_refl; done.
           ++ rewrite !(receive_request_unknown_run _ _ _ _ Hdue Hurl). done.
        -- by rewrite !(receive_request_defer_run _ _ _ _ own Hr Hown Hlt).
      * rewrite !(receive_request_raise_run _ _ _ _ Hr Hown). simpl.
        split; [done|]. split; [done|]. split; [|done].
        intros [?|(own' & ? & ?)]; congruence.
    + assert (reply_due ts from_id s) as Hdue by (by left).
      destruct (peers s !! from_id) as [url|] eqn:Hurl.
      * rewrite !(receive_request_reply_run _ _ _ _ url Hdue Hurl). simpl.
        repeat split. destruct net as [|[|] net]; simpl;
          rewrite ?String.eqb_refl; done.
      * rewrite !(receive_request_unknown_run _ _ _ _ Hdue Hurl). done.
  - unfold node_after, result_of, trace_after.
    destruct (send_request_to_all_run s net) as (net1 & tr1 & -> & _ & Hf).
    by destruct (send_request_to_all_run s []) as (net2 & tr2 & -> & _).
  - unfold node_after, result_of, trace_after.
    destruct (send_release_to_all_run s net)
      as (net1 & tr1 & tr1' & -> & _ & _ & Hf & Hf').
    destruct (send_release_to_all_run s []) as (net2 & tr2 & tr2' & -> & _).
    simpl. repeat split. by apply failures_logged_app.
  - unfold node_after, result_of, trace_after.
    destruct (begin_cycle_run s net) as (net1 & tr1 & -> & _ & Hf).
    destruct (begin_cycle_run s []) as (net2 & tr2 & -> & _).
    simpl. repeat split. by apply failures_logged_app.
  - unfold node_after, result_of, trace_after.
    destruct (end_cycle_run s net) as (net1 & tr1 & tr1' & -> & _ & _ & Hf & Hf').
    destruct (end_cycle_run s []) as (net2 & tr2 & tr2' & -> & _).
    simpl. repeat split. by apply failures_logged_app.
Qed.

Lemma send_failures_change_nothing_witness :
  reply_due 1 "2" node1
  ∧ result_of (receive_request 1 "2") [false] node1 = Return true.
Proof.
  assert (reply_due 1 "2" node1) as Hdue by (left; reflexivity).
  split; [exact Hdue|].
  exact (proj1 (proj2 (proj2 (proj1
    (send_failures_change_nothing node1 1 "2" [false])))) Hdue).
Defined.

(** The REPLY to node 2 fails: the call is in the trace, followed by its
    error line, and node 1 is as after a REPLY that went through. *)
Example node1_failed_reply :
  trace_after (receive_request 1 "2") [false] node1
  = [Log 2 (ReceivedRequest "2" 1 [(1, "2"%string)]);
     Call "2" "http://localhost:8002" (receive_reply_rpc 2 "1") false;
     Log 2 (ErrorSendingReply "2")]
  ∧ node_after (receive_request 1 "2") [false] node1
    = node_after (receive_request 1 "2") [true] node1.
Proof. by vm_compute. Qed.

(** * The node over its lifetime *)

(** X1: [__init__] builds the peer directory from the configuration by
    leaving out the node's own id: the node is no peer of itself, every other
    configured id is a peer under its URL, and when the node is configured
    there is one peer less than there are configured nodes. *)
Theorem new_node_peer_directory (id : string) (cfg : gmap string string) :
  peers (new_node id cfg) !! id = None
  ∧ (∀ k, k ≠ id → peers (new_node id cfg) !! k = cfg !! k)
  ∧ (is_Some (cfg !! id) → S (size (peers (new_node id cfg))) = size cfg).
Proof.
  assert (peers (new_node id cfg) = delete id cfg) as ->.
  { apply map_eq. intros k. simpl. rewrite map_lookup_filter.
    destruct (decide (k = id)) as [->|Hk].
    - rewrite lookup_delete_eq. destruct (cfg !! id); simpl; [|done].
      by rewrite option_guard_False by (simpl; auto).
    - rewrite lookup_delete_ne by done. destruct (cfg !! k); simpl; [|done].
      by rewrite option_guard_True. }
  split; [apply lookup_delete_eq|]. split.
  - intros k Hk. by apply lookup_delete_ne.
  - intros Hcfg. rewrite (map_size_delete_Some _ _ Hcfg).
    assert (size cfg ≠ 0%nat) as Hpos.
    { intros Hzero%map_size_empty_iff. rewrite Hzero, lookup_empty in Hcfg.
      by destruct Hcfg. }
    lia.
Qed.

Lemma new_node_peer_directory_witness :
  is_Some (three_nodes !! "1"%string)
  ∧ S (size (peers (new_node "1" three_nodes))) = size three_nodes.
Proof.
  assert (is_Some (three_nodes !! "1"%string)) as Hcfg
    by (eexists; vm_compute; reflexivity).
  split; [exact Hcfg|].
  exact (proj2 (proj2 (new_node_peer_directory "1" three_nodes)) Hcfg).
Defined.

(** X2: no handler and no phase of the cycle changes who the node is or
    whom it knows: in every reachable state [node_id] and [peers] are as
    [__init__] set them. *)
Theorem identity_and_directory_fixed (id : string) (cfg : gmap string string) (p : proc) :
  reachable id cfg p →
  node_id (node_of p) = id
  ∧ peers (node_of p) = peers (new_node id cfg)
  ∧ peers (node_of p) !! id = None.
Proof.
  intros (Hid & Hpeers & _)%reachable_consistent.
  split; [done|]. split; [done|]. rewrite Hpeers.
  simpl. apply map_lookup_filter_None. right. intros x _. simpl. auto.
Qed.

Lemma identity_and_directory_fixed_witness :
  match node1_one_cycle with
  | Some p =>
      reachable "1" three_nodes p
      ∧ node_id (node_of p) = "1"%string
      ∧ peers (node_of p) = peers (new_node "1" three_nodes)
      ∧ peers (node_of p) !! "1"%string = None
  | None => False
  end.
Proof.
  pose proof (run_reachable "1" three_nodes
    [StartCycle []; DeliverRequest 5 "2" []; DeliverReply 6 "2";
     DeliverReply 3 "3"; Poll; FinishCycle [true; false]]
    (init "1" three_nodes)) as Hreach.
  fold node1_one_cycle in Hreach.
  destruct node1_one_cycle as [p|] eqn:Hrun; [|by vm_compute in Hrun].
  specialize (Hreach p (reach_init _ _) eq_refl).
  split; [exact Hreach|].
  exact (identity_and_directory_fixed "1" three_nodes p Hreach).
Defined.

(** X3: the clock never goes back over a run of the node; every step but a
    turn of the wait loop raises it, and the delivery of a message stamped
    [ts] leaves it above [ts]. *)
Theorem clock_over_a_run (p : proc) :
  (∀ acts p', run acts p = Some p' → clock (node_of p) ≤ clock (node_of p'))
  ∧ (∀ a p', step a p = Some p' → a ≠ Poll →
             clock (node_of p) < clock (node_of p'))
  ∧ (∀ a p' ts, step a p = Some p' → delivered_ts a = Some ts →
                ts < clock (node_of p')).
Proof.
  split; [|split].
  - intros acts. revert p. induction acts as [|a acts IH]; intros p p' Hrun.
    + simpl in Hrun. simplify_eq. lia.
    + simpl in Hrun. destruct (step a p) as [p1|] eqn:Hstep; [|done].
      apply step_clock_monotone in Hstep. apply IH in Hrun. lia.
  - intros a p' Hstep Hpoll. destruct p as [ph s tr].
    destruct a as [ts f net|ts f|ts f|net| |net]; simpl in Hstep; try done.
    + destruct (receive_request_node ts f s net) as (d & Hnode & _).
      unfold run_method in Hstep. unfold node_after in Hnode. simpl in *.
      destruct (receive_request ts f (World s net)) as [[o w] tr'].
      simplify_eq/=. rewrite Hnode. simpl. lia.
    + simplify_eq/=. lia.
    + simplify_eq/=. lia.
    + destruct ph; try done. unfold run_method in Hstep; simpl in Hstep.
      destruct (begin_cycle_run s net) as (net' & tr' & Hrun & _).
      rewrite Hrun in Hstep. simplify_eq/=. lia.
    + destruct ph; try done. unfold run_method in Hstep; simpl in Hstep.
      destruct (end_cycle_run s net) as (net' & tr1 & tr2 & Hrun & _).
      unfold mbind, M_bind in Hstep. rewrite critical_section_exit_run in Hstep.
      rewrite Hrun in Hstep. simplify_eq/=. lia.
  - intros a p' ts Hstep Hts. destruct p as [ph s tr].
    destruct a as [ts' f net|ts' f|ts' f|net| |net]; simplify_eq/=.
    + destruct (receive_request_node ts f s net) as (d & Hnode & _).
      unfold run_method. unfold node_after in Hnode. simpl in *.
      destruct (receive_request ts f (World s net)) as [[o w] tr'].
      simplify_eq/=. rewrite Hnode. simpl. lia.
    + lia.
    + lia.
Qed.

Lemma clock_over_a_run_witness :
  match node1_one_cycle with
  | Some p' => clock (node_of (init "1" three_nodes)) ≤ clock (node_of p')
  | None => False
  end.
Proof.
  destruct node1_one_cycle as [p'|] eqn:Hrun; [|by vm_compute in Hrun].
  exact (proj1 (clock_over_a_run (init "1" three_nodes)) _ p' Hrun).
Defined.

(** ** Timestamps in the queue *)

Lemma step_stamps_bounded a p p' :
  stamps_bounded (node_of p) → step a p = Some p' → stamps_bounded (node_of p').
Proof.
  destruct p as [ph s tr]. unfold stamps_bounded. simpl. intros Hb Hstep.
  assert (∀ c q, clock s ≤ c → Forall (λ r : PyTuple.t, r.1 ≤ c) q →
                 ∀ r, r.1 ≤ c →
                 Forall (λ r : PyTuple.t, r.1 ≤ c) (py_sort PyTuple.ltb (q ++ [r])))
    as Hsort.
  { intros c q _ Hq r Hr. rewrite queue_sort_Permutation.
    apply Forall_app. split; [done|]. by constructor. }
  assert (∀ c, clock s ≤ c →
               Forall (λ r : PyTuple.t, r.1 ≤ c) (request_queue s)) as Hup.
  { intros c Hc. eapply Forall_impl; [exact Hb|]. simpl. intros r Hr. lia. }
  assert (∀ c (P : PyTuple.t → Prop) `{!∀ x, Decision (P x)}, clock s ≤ c →
               Forall (λ r : PyTuple.t, r.1 ≤ c) (filter P (request_queue s)))
    as Hfilter.
  { intros c P ? Hc. apply Forall_forall. intros r [_ Hr]%list_elem_of_filter.
    specialize (Hup c Hc). by eapply Forall_forall in Hup. }
  destruct a as [ts f net|ts f|ts f|net| |net]; simpl in Hstep.
  - destruct (receive_request_node ts f s net) as (d & Hnode & _).
    unfold run_method in Hstep. unfold node_after in Hnode. simpl in *.
    destruct (receive_request ts f (World s net)) as [[o w] tr'].
    simplify_eq/=. rewrite Hnode. simpl.
    apply Hsort; [lia|apply Hup; lia|simpl; lia].
  - simplify_eq/=. apply Hup. lia.
  - simplify_eq/=. apply Hfilter. lia.
  - destruct ph; try done. unfold run_method in Hstep; simpl in Hstep.
    destruct (begin_cycle_run s net) as (net' & tr' & Hrun & _).
    rewrite Hrun in Hstep. simplify_eq/=.
    apply Hsort; [lia|apply Hup; lia|simpl; lia].
  - destruct ph; try done. unfold run_method in Hstep; simpl in Hstep.
    rewrite can_enter_cs_run in Hstep.
    destruct (request_queue s) as [|first rest] eqn:Hq,
      (own_request_ts s) as [own|];
      simpl in Hstep; try done; destruct (truthy _); simplify_eq/=;
      rewrite ?Hq; done.
  - destruct ph; try done. unfold run_method in Hstep; simpl in Hstep.
    destruct (end_cycle_run s net) as (net' & tr1 & tr2 & Hrun & _).
    unfold mbind, M_bind in Hstep. rewrite critical_section_exit_run in Hstep.
    rewrite Hrun in Hstep. simplify_eq/=. apply Hfilter. lia.
Qed.

Lemma reachable_stamps_bounded id cfg p :
  reachable id cfg p → stamps_bounded (node_of p).
Proof.
  induction 1 as [|a p p' _ IH Hstep]; [constructor|].
  by eapply step_stamps_bounded.
Qed.

(** X4: in every reachable state no record of the queue is stamped later
    than the clock, so that the record [send_request_to_all] inserts, stamped
    with the clock after its tick, goes behind every record the queue
    holds. *)
Theorem own_request_goes_last
    (id : string) (cfg : gmap string string) (p : proc) (net : list bool) :
  reachable id cfg p →
  let s := node_of p in
  Forall (λ r : PyTuple.t, r.1 ≤ clock s) (request_queue s)
  ∧ request_queue (node_after send_request_to_all net s)
    = request_queue s ++ [(clock s + 1, node_id s)]
  ∧ own_request_ts (node_after send_request_to_all net s) = Some (clock s + 1).
Proof.
  intros Hreach s.
  pose proof (reachable_stamps_bounded id cfg p Hreach) as Hb.
  pose proof (reachable_consistent id cfg p Hreach) as (_ & _ & Hq & _).
  fold s in Hb, Hq. split; [exact Hb|].
  unfold node_after.
  destruct (send_request_to_all_run s net) as (net' & tr & -> & _). simpl.
  split; [|done]. rewrite (queue_sort_insert _ _ Hq).
  apply insort_last. eapply Forall_impl; [exact Hb|].
  intros [ts f] Hr. simpl in Hr. unfold PyTuple.ltb. simpl.
  destruct (Z.eqb_spec (clock s + 1) ts); [lia|].
  apply Z.ltb_ge. lia.
Qed.

Lemma own_request_goes_last_witness :
  match node1_two_requests with
  | Some p =>
      reachable "1" three_nodes p
      ∧ request_queue (node_after send_request_to_all [] (node_of p))
        = request_queue (node_of p) ++ [(clock (node_of p) + 1, node_id (node_of p))]
  | None => False
  end.
Proof.
  pose proof (run_reachable "1" three_nodes
    [DeliverRequest 1 "2" []; DeliverRequest 2 "2" []]
    (init "1" three_nodes)) as Hreach.
  fold node1_two_requests in Hreach.
  destruct node1_two_requests as [p|] eqn:Hrun; [|by vm_compute in Hrun].
  specialize (Hreach p (reach_init _ _) eq_refl).
  split; [exact Hreach|].
  exact (proj1 (proj2 (own_request_goes_last "1" three_nodes p [] Hreach))).
Defined.



(** * Requests from elsewhere *)

Lemma receive_request_deferred_requesting ts from_id s net own :
  requesting s = true → own_request_ts s = Some own →
  deferred (node_after (receive_request ts from_id) net s)
  = if PyTuple.ltb (ts, from_id) (own, node_id s) then deferred s
    else {[from_id]} ∪ deferred s.
Proof.
  intros Hr Hown. unfold node_after.
  destruct (PyTuple.ltb (ts, from_id) (own, node_id s)) eqn:Hlt.
  - assert (reply_due ts from_id s) as Hdue by (right; eauto).
    destruct (peers s !! from_id) as [url|] eqn:Hurl.
    + by rewrite (receive_request_reply_run _ _ _ _ url Hdue Hurl).
    + by rewrite (receive_request_unknown_run _ _ _ _ Hdue Hurl).
  - by rewrite (receive_request_defer_run _ _ _ _ own Hr Hown Hlt).
Qed.

(** X6: a REQUEST whose sender has no entry in [peers] and is due a REPLY
    gets none: the lookup fails, no RPC is made, the error line is logged and
    the handler returns [True].  The record of the request is in the queue
    all the same. *)
Theorem request_from_unknown_sender
    (s : LamportNode) (ts : Z) (from_id : string) (net : list bool) :
  peers s !! from_id = None → reply_due ts from_id s →
  let c := Z.max (clock s) ts + 1 in
  let s' := node_after (receive_request ts from_id) net s in
  result_of (receive_request ts from_id) net s = Return true
  ∧ trace_after (receive_request ts from_id) net s
    = [Log c (ReceivedRequest from_id ts (request_queue s'));
       Log c (ErrorSendingReply from_id)]
  ∧ (ts, from_id) ∈ request_queue s'
  ∧ deferred s' = deferred s
  ∧ replies_received s' = replies_received s.
Proof.
  intros Hurl Hdue c s'. unfold s', result_of, trace_after, node_after.
  rewrite (receive_request_unknown_run _ _ _ _ Hdue Hurl). simpl.
  split; [done|]. split; [done|]. split; [|done].
  rewrite queue_sort_Permutation. apply elem_of_app. right. apply list_elem_of_here.
Qed.

Lemma request_from_unknown_sender_witness :
  peers node1 !! "9"%string = None
  ∧ reply_due 4 "9" node1
  ∧ result_of (receive_request 4 "9") [] node1 = Return true.
Proof.
  assert (reply_due 4 "9" node1) as Hdue by (left; reflexivity).
  split; [reflexivity|]. split; [exact Hdue|].
  exact (proj1 (request_from_unknown_sender node1 4 "9" [] eq_refl Hdue)).
Defined.

Lemma earlier_record_not_first (s : LamportNode) (own : Z) (r : PyTuple.t) :
  ascending (request_queue s) →
  own_request_ts s = Some own →
  r ∈ request_queue s →
  ts_then_id_lt r (own, node_id s) →
  can_enter s = false.
Proof.
  intros Hq Hown Hr Hlt. apply not_true_is_false.
  intros (_ & _ & own' & Hown' & Hhead)%can_enter_iff. simplify_eq.
  pose proof (ascending_head_least _ _ _ Hq Hhead Hr) as Hle.
  apply PyTupleFacts.le_spec in Hle. apply PyTupleFacts.ltb_spec in Hlt.
  unfold PyTuple.le in Hle. congruence.
Qed.

(** X7: as long as the queue, in order, holds a record that is strictly
    before the node's own, [can_enter_cs] returns no truthy value, however
    many replies have come in. *)
Theorem earlier_record_blocks_entry
    (s : LamportNode) (own : Z) (r : PyTuple.t) :
  ascending (request_queue s) →
  own_request_ts s = Some own →
  r ∈ request_queue s →
  ts_then_id_lt r (own, node_id s) →
  can_enter s = false
  ∧ ∀ tr p', step Poll (Proc Requesting s tr) = Some p' →
             phase_of p' = Requesting.
Proof.
  intros Hq Hown Hr Hlt.
  pose proof (earlier_record_not_first s own r Hq Hown Hr Hlt) as Hno.
  split; [exact Hno|]. intros tr p'. unfold can_enter, result_of in Hno.
  simpl. unfold run_method. simpl.
  destruct (can_enter_cs (World s [])) as [[[v|e] w] tr']; simpl in *; [|done].
  rewrite Hno. by intros [= <-].
Qed.

Lemma earlier_record_blocks_entry_witness :
  let s := node_after (receive_reply 3 "3") []
             (node_after (receive_reply 3 "2") []
                (node_after (receive_request 0 "3") []
                   (node_after begin_cycle [] node1))) in
  ascending (request_queue s)
  ∧ own_request_ts s = Some 1
  ∧ (0, "3"%string) ∈ request_queue s
  ∧ ts_then_id_lt (0, "3"%string) (1, node_id s)
  ∧ size (replies_received s) = size (peers s)
  ∧ can_enter s = false.
Proof.
  intros s.
  assert (ascending (request_queue s)) as Hq.
  { apply PyTupleFacts.ascending_iff. vm_compute. repeat constructor. }
  assert ((0, "3"%string) ∈ request_queue s) as Hin.
  { vm_compute. apply list_elem_of_here. }
  assert (ts_then_id_lt (0, "3"%string) (1, node_id s)) as Hlt.
  { left. simpl. lia. }
  split; [exact Hq|]. split; [reflexivity|]. split; [exact Hin|].
  split; [exact Hlt|]. split; [by vm_compute|].
  exact (proj1 (earlier_record_blocks_entry s 1 (0, "3"%string) Hq eq_refl Hin Hlt)).
Defined.

(** X8: two nodes that are both requesting and hear each other's request:
    the one whose own request is first, timestamp before node id, adds the
    other to [deferred], and the other adds nobody.  Never do both defer,
    and never neither. *)
Theorem one_of_two_requesters_defers
    (a b : LamportNode) (ts_a ts_b : Z) (net_a net_b : list bool) :
  requesting a = true → own_request_ts a = Some ts_a →
  requesting b = true → own_request_ts b = Some ts_b →
  node_id a ≠ node_id b →
  let a' := node_after (receive_request ts_b (node_id b)) net_a a in
  let b' := node_after (receive_request ts_a (node_id a)) net_b b in
  (ts_then_id_lt (ts_a, node_id a) (ts_b, node_id b)
   ∧ deferred a' = {[node_id b]} ∪ deferred a
   ∧ deferred b' = deferred b)
  ∨ (ts_then_id_lt (ts_b, node_id b) (ts_a, node_id a)
     ∧ deferred a' = deferred a
     ∧ deferred b' = {[node_id a]} ∪ deferred b).
Proof.
  intros Hra Ha Hrb Hb Hne a' b'. unfold a', b'.
  rewrite (receive_request_deferred_requesting _ _ _ _ ts_a Hra Ha).
  rewrite (receive_request_deferred_requesting _ _ _ _ ts_b Hrb Hb).
  destruct (PyTupleFacts.trichotomy (ts_a, node_id a) (ts_b, node_id b))
    as [Hlt|[Heq|Hlt]].
  - left. rewrite Hlt, (PyTupleFacts.ltb_asym _ _ Hlt).
    by apply PyTupleFacts.ltb_spec in Hlt.
  - by simplify_eq.
  - right. rewrite Hlt, (PyTupleFacts.ltb_asym _ _ Hlt).
    by apply PyTupleFacts.ltb_spec in Hlt.
Qed.

Lemma one_of_two_requesters_defers_witness :
  let a := node_after begin_cycle [] node1 in
  let b := node_after begin_cycle [] (new_node "2" three_nodes) in
  (requesting a = true ∧ own_request_ts a = Some 1
   ∧ requesting b = true ∧ own_request_ts b = Some 1
   ∧ node_id a ≠ node_id b)
  ∧ ((ts_then_id_lt (1, node_id a) (1, node_id b)
      ∧ deferred (node_after (receive_request 1 (node_id b)) [] a)
        = {[node_id b]} ∪ deferred a
      ∧ deferred (node_after (receive_request 1 (node_id a)) [] b) = deferred b)
     ∨ (ts_then_id_lt (1, node_id b) (1, node_id a)
        ∧ deferred (node_after (receive_request 1 (node_id b)) [] a) = deferred a
        ∧ deferred (node_after (receive_request 1 (node_id a)) [] b)
          = {[node_id a]} ∪ deferred b)).
Proof.
  intros a b.
  assert (node_id a ≠ node_id b) as Hne by (by vm_compute).
  split; [repeat split; try reflexivity; exact Hne|].
  exact (one_of_two_requesters_defers a b 1 1 [] [] eq_refl eq_refl eq_refl eq_refl Hne).
Defined.

(** * Records come and go *)

Lemma filter_all {A} (P : A → Prop) `{!∀ x, Decision (P x)} (l : list A) :
  Forall P l → filter P l = l.
Proof.
  induction 1 as [|x l Hx _ IH]; [done|].
  by rewrite filter_cons_True, IH.
Qed.

Lemma no_records_Forall id q :
  records_of id q = [] → Forall (λ x : Z * string, x.2 ≠ id) q.
Proof.
  intros Hnone. apply Forall_forall. intros x Hx Heq.
  assert (x ∈ records_of id q) as Hin by (by apply list_elem_of_filter).
  rewrite Hnone in Hin. by apply not_elem_of_nil in Hin.
Qed.

(** Taking the records of [id] out of a queue that got one record of [id]
    by append-and-sort gives the queue back, if it was in order and had no
    record of [id]. *)
Lemma insert_then_remove q ts id :
  ascending q → records_of id q = [] →
  filter (λ x : Z * string, x.2 ≠ id) (py_sort PyTuple.ltb (q ++ [(ts, id)])) = q.
Proof.
  intros Hq Hnone.
  apply (StronglySorted_unique PyTuple.le).
  - apply PyTupleFacts.ascending_iff, queue_filter_ascending, queue_sort_ascending.
  - by apply PyTupleFacts.ascending_iff.
  - rewrite queue_sort_Permutation, filter_app.
    rewrite (filter_all _ q) by (by apply no_records_Forall).
    rewrite filter_cons_False, filter_nil by (simpl; auto).
    by rewrite app_nil_r.
Qed.

(** X9: a REQUEST of a node followed by its RELEASE leaves the queue as it
    was before the two, when the queue was in order and held no record of
    that node; the clock has moved past both timestamps. *)
Theorem request_then_release_restores_queue
    (s : LamportNode) (ts ts' : Z) (from_id : string) (net net' : list bool) :
  ascending (request_queue s) →
  records_of from_id (request_queue s) = [] →
  let s1 := node_after (receive_request ts from_id) net s in
  let s2 := node_after (receive_release ts' from_id) net' s1 in
  request_queue s2 = request_queue s
  ∧ ts < clock s2 ∧ ts' < clock s2 ∧ clock s < clock s2.
Proof.
  intros Hq Hnone s1 s2. unfold s2, s1.
  destruct (receive_request_node ts from_id s net) as (d & -> & _).
  unfold node_after. rewrite receive_release_run. simpl.
  split; [by apply insert_then_remove|]. lia.
Qed.

Lemma request_then_release_restores_queue_witness :
  ascending (request_queue node1_deferring)
  ∧ records_of "3" (request_queue node1_deferring) = []
  ∧ request_queue (node_after (receive_release 8 "3") []
                     (node_after (receive_request 0 "3") [] node1_deferring))
    = request_queue node1_deferring.
Proof.
  assert (ascending (request_queue node1_deferring)) as Hq.
  { apply PyTupleFacts.ascending_iff. vm_compute. repeat constructor. }
  split; [exact Hq|]. split; [reflexivity|].
  exact (proj1 (request_then_release_restores_queue
                  node1_deferring 0 8 "3" [] [] Hq eq_refl)).
Defined.

(** X10: a whole cycle, with nothing delivered in between, leaves a node that
    had no record of its own in an ordered queue with the same queue, the
    clock two ticks on, its request timestamp the first of the two, and
    [requesting], [replies_received] and [deferred] cleared. *)
Theorem cycle_restores_queue (s : LamportNode) (net net' : list bool) :
  ascending (request_queue s) →
  records_of (node_id s) (request_queue s) = [] →
  node_after end_cycle net' (node_after begin_cycle net s)
  = mkNode (node_id s) (peers s) (clock s + 2) (request_queue s) false
           (Some (clock s + 1)) ∅ ∅.
Proof.
  intros Hq Hnone. unfold node_after.
  destruct (begin_cycle_run s net) as (net1 & tr & -> & _). simpl.
  match goal with
  | |- context [end_cycle (World ?s1 net')] =>
      destruct (end_cycle_run s1 net') as (net2 & tr1 & tr2 & -> & _)
  end.
  simpl. rewrite (insert_then_remove _ _ _ Hq Hnone).
  unfold set_deferred, set_request_queue, set_clock; simpl.
  f_equal. lia.
Qed.

Lemma cycle_restores_queue_witness :
  ascending (request_queue node1_heard_request)
  ∧ records_of (node_id node1_heard_request) (request_queue node1_heard_request) = []
  ∧ node_after end_cycle [false] (node_after begin_cycle [] node1_heard_request)
    = mkNode "1" (peers node1_heard_request) 4 [(1, "2"%string)] false (Some 3) ∅ ∅.
Proof.
  assert (ascending (request_queue node1_heard_request)) as Hq.
  { apply PyTupleFacts.ascending_iff. vm_compute. repeat constructor. }
  split; [exact Hq|]. split; [reflexivity|].
  exact (cycle_restores_queue node1_heard_request [] [false] Hq eq_refl).
Defined.

(** * Waiting and entering *)

Lemma step_without_reply a p p' :
  step a p = Some p' → is_reply a = false →
  phase_of p = Requesting →
  size (replies_received (node_of p)) ≠ size (peers (node_of p)) →
  phase_of p' = Requesting
  ∧ replies_received (node_of p') = replies_received (node_of p)
  ∧ peers (node_of p') = peers (node_of p).
Proof.
  destruct p as [ph s tr]. simpl. intros Hstep Hrep -> Hsize.
  destruct a as [ts f net|ts f|ts f|net| |net]; simpl in Hstep; try done.
  - destruct (receive_request_node ts f s net) as (d & Hnode & _).
    unfold run_method in Hstep. unfold node_after in Hnode. simpl in *.
    destruct (receive_request ts f (World s net)) as [[o w] tr'].
    simplify_eq/=. by rewrite Hnode.
  - by simplify_eq/=.
  - unfold run_method in Hstep; simpl in Hstep.
    rewrite can_enter_cs_run in Hstep.
    apply Nat.eqb_neq in Hsize. rewrite Hsize in Hstep.
    destruct (request_queue s) as [|first rest], (own_request_ts s) as [own|],
      (requesting s); by simplify_eq/=.
Qed.

(** X11: a node in its wait loop that has not as many replies as it has
    peers stays in the wait loop, with the same replies, over any run in
    which no REPLY is delivered: a REQUEST or a RELEASE never stands in for a
    REPLY. *)
Theorem no_entry_without_a_reply (acts : list action) (p p' : proc) :
  phase_of p = Requesting →
  size (replies_received (node_of p)) ≠ size (peers (node_of p)) →
  forallb (λ a, negb (is_reply a)) acts = true →
  run acts p = Some p' →
  phase_of p' = Requesting
  ∧ replies_received (node_of p') = replies_received (node_of p).
Proof.
  revert p. induction acts as [|a acts IH]; intros p Hph Hsize Hacts Hrun.
  - simpl in Hrun. by simplify_eq.
  - simpl in Hacts, Hrun. apply andb_true_iff in Hacts as [Ha Hacts].
    apply negb_true_iff in Ha.
    destruct (step a p) as [p1|] eqn:Hstep; [|done].
    destruct (step_without_reply a p p1 Hstep Ha Hph Hsize) as (Hph1 & Hr1 & Hp1).
    destruct (IH p1) as [Hph' Hr']; try done.
    + by rewrite Hr1, Hp1.
    + split; [done|]. by rewrite Hr', Hr1.
Qed.

Lemma no_entry_without_a_reply_witness :
  let acts := [DeliverRequest 0 "3" []; Poll; DeliverRelease 4 "3"; Poll;
               DeliverRequest 7 "2" [false]; Poll] in
  match run [StartCycle []] (init "1" three_nodes) with
  | Some p =>
      match run acts p with
      | Some p' => phase_of p' = Requesting
                   ∧ replies_received (node_of p') = replies_received (node_of p)
      | None => False
      end
  | None => False
  end.
Proof.
  intros acts.
  destruct (run [StartCycle []] (init "1" three_nodes)) as [p|] eqn:Hp;
    [|by vm_compute in Hp].
  assert (phase_of p = Requesting) as Hph.
  { vm_compute in Hp. by simplify_eq. }
  assert (size (replies_received (node_of p)) ≠ size (peers (node_of p))) as Hsize.
  { vm_compute in Hp. simplify_eq. by vm_compute. }
  destruct (run acts p) as [p'|] eqn:Hrun.
  - exact (no_entry_without_a_reply acts p p' Hph Hsize eq_refl Hrun).
  - vm_compute in Hp. simplify_eq; try by vm_compute in Hrun.
Defined.


Lemma step_keeps_earlier_record id cfg a p p' own (r : PyTuple.t) :
  reachable id cfg p → step a p = Some p' → is_release_of r.2 a = false →
  phase_of p = Requesting →
  own_request_ts (node_of p) = Some own →
  r ∈ request_queue (node_of p) →
  ts_then_id_lt r (own, node_id (node_of p)) →
  phase_of p' = Requesting
  ∧ own_request_ts (node_of p') = Some own
  ∧ node_id (node_of p') = node_id (node_of p)
  ∧ r ∈ request_queue (node_of p').
Proof.
  intros Hreach Hstep Hrel Hph Hown Hr Hlt.
  pose proof (reachable_consistent id cfg p Hreach) as (_ & _ & Hq & _).
  destruct p as [ph s tr]. simpl in *. subst ph.
  destruct a as [ts f net|ts f|ts f|net| |net]; simpl in Hstep; try done.
  - destruct (receive_request_node ts f s net) as (d & Hnode & _).
    unfold run_method in Hstep. unfold node_after in Hnode. simpl in *.
    destruct (receive_request ts f (World s net)) as [[o w] tr'].
    simplify_eq/=. rewrite Hnode. simpl. repeat split; try done.
    rewrite queue_sort_Permutation. apply elem_of_app. by left.
  - by simplify_eq/=.
  - simplify_eq/=. repeat split; try done.
    apply list_elem_of_filter. split; [|done].
    simpl in Hrel. apply String.eqb_neq in Hrel. congruence.
  - unfold run_method in Hstep; simpl in Hstep.
    pose proof (earlier_record_not_first s own r Hq Hown Hr Hlt) as Hno.
    unfold can_enter, result_of in Hno.
    rewrite can_enter_cs_run in Hstep, Hno. rewrite Hown in Hstep, Hno.
    destruct (request_queue s) as [|first rest] eqn:Hqueue;
      [by apply not_elem_of_nil in Hr|].
    simpl in *. rewrite Hno in Hstep. simplify_eq/=. by rewrite Hqueue.
Qed.

(** X12: a node in its wait loop whose queue holds a record that is before
    its own keeps waiting, with that record in the queue, over any run in
    which no RELEASE of the record's node is delivered: nothing else takes
    the record out, so a RELEASE that was lost holds the node back for
    good. *)
Theorem earlier_record_holds_until_release
    (id : string) (cfg : gmap string string)
    (acts : list action) (p p' : proc) (own : Z) (r : PyTuple.t) :
  reachable id cfg p →
  phase_of p = Requesting →
  own_request_ts (node_of p) = Some own →
  r ∈ request_queue (node_of p) →
  ts_then_id_lt r (own, node_id (node_of p)) →
  forallb (λ a, negb (is_release_of r.2 a)) acts = true →
  run acts p = Some p' →
  phase_of p' = Requesting ∧ r ∈ request_queue (node_of p').
Proof.
  revert p. induction acts as [|a acts IH];
    intros p Hreach Hph Hown Hr Hlt Hacts Hrun.
  - simpl in Hrun. by simplify_eq.
  - simpl in Hacts, Hrun. apply andb_true_iff in Hacts as [Ha Hacts].
    apply negb_true_iff in Ha.
    destruct (step a p) as [p1|] eqn:Hstep; [|done].
    destruct (step_keeps_earlier_record id cfg a p p1 own r)
      as (Hph1 & Hown1 & Hid1 & Hr1); try done.
    apply (IH p1); try done.
    + by eapply reach_step.
    + by rewrite Hid1.
Qed.

Lemma earlier_record_holds_until_release_witness :
  let acts := [DeliverReply 3 "2"; DeliverReply 3 "3"; Poll;
               DeliverRequest 9 "3" []; DeliverRelease 10 "2"; Poll] in
  match run [StartCycle []; DeliverRequest 0 "3" []] (init "1" three_nodes) with
  | Some p =>
      reachable "1" three_nodes p
      ∧ match run acts p with
        | Some p' => phase_of p' = Requesting
                     ∧ (0, "3"%string) ∈ request_queue (node_of p')
        | None => False
        end
  | None => False
  end.
Proof.
  intros acts.
  pose proof (run_reachable "1" three_nodes
    [StartCycle []; DeliverRequest 0 "3" []] (init "1" three_nodes)) as Hreach.
  destruct (run [StartCycle []; DeliverRequest 0 "3" []] (init "1" three_nodes))
    as [p|] eqn:Hp; [|by vm_compute in Hp].
  specialize (Hreach p (reach_init _ _) eq_refl).
  split; [exact Hreach|].
  assert (phase_of p = Requesting ∧ own_request_ts (node_of p) = Some 1
          ∧ node_id (node_of p) = "1"%string
          ∧ request_queue (node_of p) = [(0, "3"%string); (1, "1"%string)])
    as (Hph & Hown & Hid & Hq).
  { vm_compute in Hp. by simplify_eq. }
  assert ((0, "3"%string) ∈ request_queue (node_of p)) as Hin.
  { rewrite Hq. apply list_elem_of_here. }
  assert (ts_then_id_lt (0, "3"%string) (1, node_id (node_of p))) as Hlt.
  { left. simpl. lia. }
  destruct (run acts p) as [p'|] eqn:Hrun.
  - exact (earlier_record_holds_until_release "1" three_nodes acts p p' 1
             (0, "3"%string) Hreach Hph Hown Hin Hlt eq_refl Hrun).
  - vm_compute in Hp. simplify_eq; try by vm_compute in Hrun.
Defined.

Lemma step_replies_from_peers a p p' :
  step a p = Some p' →
  reply_from (dom (peers (node_of p))) a = true →
  replies_received (node_of p) ⊆ dom (peers (node_of p)) →
  (phase_of p = InCriticalSection →
   dom (peers (node_of p)) ⊆ replies_received (node_of p)) →
  peers (node_of p') = peers (node_of p)
  ∧ replies_received (node_of p') ⊆ dom (peers (node_of p'))
  ∧ (phase_of p' = InCriticalSection →
     dom (peers (node_of p')) ⊆ replies_received (node_of p')).
Proof.
  destruct p as [ph s tr]. simpl. intros Hstep Hfrom Hsub Hall.
  destruct a as [ts f net|ts f|ts f|net| |net]; simpl in Hstep.
  - destruct (receive_request_node ts f s net) as (d & Hnode & _).
    unfold run_method in Hstep. unfold node_after in Hnode. simpl in *.
    destruct (receive_request ts f (World s net)) as [[o w] tr'].
    simplify_eq/=. by rewrite Hnode.
  - simplify_eq/=. apply bool_decide_eq_true in Hfrom.
    split; [done|]. split.
    + intros x [->%elem_of_singleton|Hx]%elem_of_union; [done|by apply Hsub].
    + intros Hph x Hx. apply elem_of_union. right. by apply Hall.
  - by simplify_eq/=.
  - destruct ph; try done. unfold run_method in Hstep; simpl in Hstep.
    destruct (begin_cycle_run s net) as (net' & tr' & Hrun & _).
    rewrite Hrun in Hstep. simplify_eq/=. split; [done|]. split; [|done].
    intros x Hx. by apply not_elem_of_empty in Hx.
  - destruct ph; try done. unfold run_method in Hstep; simpl in Hstep.
    pose proof (can_enter_iff s) as Hiff. unfold can_enter, result_of in Hiff.
    destruct (can_enter_cs (World s [])) as [[[v|e] w] tr'] eqn:Hrun;
      simpl in *; [|done].
    rewrite can_enter_cs_run in Hrun.
    assert (w = World s []) as ->.
    { destruct (request_queue s), (own_request_ts s); by simplify_eq/=. }
    destruct (truthy v); simplify_eq/=; [|done].
    split; [done|]. split; [done|]. intros _.
    destruct Hiff as [Hiff _]. destruct (Hiff eq_refl) as (_ & Hsize & _).
    by apply (peers_counted s Hsub).
  - destruct ph; try done. unfold run_method in Hstep; simpl in Hstep.
    destruct (end_cycle_run s net) as (net' & tr1 & tr2 & Hrun & _).
    unfold mbind, M_bind in Hstep. rewrite critical_section_exit_run in Hstep.
    rewrite Hrun in Hstep. simplify_eq/=. split; [done|]. split; [|done].
    intros x Hx. by apply not_elem_of_empty in Hx.
Qed.

(** X13: over a run in which every REPLY delivered is the REPLY of a peer,
    [replies_received] holds peers only, and whenever the node is in its
    critical section every peer is in [replies_received]: the node has not
    entered before each of its peers replied to the request of this
    cycle. *)
Theorem entry_after_every_peer_replied
    (id : string) (cfg : gmap string string) (acts : list action) (p : proc) :
  forallb (reply_from (dom (peers (new_node id cfg)))) acts = true →
  run acts (init id cfg) = Some p →
  replies_received (node_of p) ⊆ dom (peers (node_of p))
  ∧ (phase_of p = InCriticalSection →
     dom (peers (node_of p)) ⊆ replies_received (node_of p)).
Proof.
  intros Hacts Hrun.
  assert (∀ acts p0 p1,
    peers (node_of p0) = peers (new_node id cfg) →
    replies_received (node_of p0) ⊆ dom (peers (node_of p0)) →
    (phase_of p0 = InCriticalSection →
     dom (peers (node_of p0)) ⊆ replies_received (node_of p0)) →
    forallb (reply_from (dom (peers (new_node id cfg)))) acts = true →
    run acts p0 = Some p1 →
    replies_received (node_of p1) ⊆ dom (peers (node_of p1))
    ∧ (phase_of p1 = InCriticalSection →
       dom (peers (node_of p1)) ⊆ replies_received (node_of p1))) as Hgen.
  { clear. intros acts. induction acts as [|a acts IH];
      intros p0 p1 Hpeers Hsub Hall Hacts Hrun.
    - simpl in Hrun. by simplify_eq.
    - cbn [forallb] in Hacts. simpl in Hrun.
      apply andb_true_iff in Hacts as [Ha Hacts].
      destruct (step a p0) as [p2|] eqn:Hstep; [|done].
      rewrite <- Hpeers in Ha.
      destruct (step_replies_from_peers a p0 p2 Hstep Ha Hsub Hall)
        as (Hpeers2 & Hsub2 & Hall2).
      apply (IH p2 p1); try done. by rewrite Hpeers2. }
  by apply (Hgen acts (init id cfg) p).
Qed.

Lemma entry_after_every_peer_replied_witness :
  match node1_in_critical_section with
  | Some p =>
      replies_received (node_of p) ⊆ dom (peers (node_of p))
      ∧ (phase_of p = InCriticalSection →
         dom (peers (node_of p)) ⊆ replies_received (node_of p))
  | None => False
  end.
Proof.
  destruct node1_in_critical_section as [p|] eqn:Hrun; [|by vm_compute in Hrun].
  refine (entry_after_every_peer_replied "1" three_nodes
    [StartCycle []; DeliverReply 2 "2"; DeliverReply 2 "3"; Poll] p _ Hrun).
  by vm_compute.
Defined.

(** ** The shared ledger *)

Lemma ledger_lines_app tr1 tr2 :
  ledger_lines (tr1 ++ tr2) = ledger_lines tr1 ++ ledger_lines tr2.
Proof. apply filter_app. Qed.

Lemma ledger_lines_concat trs :
  Forall (λ tr, ledger_lines tr = []) trs → ledger_lines (concat trs) = [].
Proof.
  induction 1 as [|tr trs Htr _ IH]; [done|].
  simpl. by rewrite ledger_lines_app, Htr, IH.
Qed.

Lemma Forall2_quiet {A} (l : list A) trs :
  Forall2 (λ _ tr, ledger_lines tr = []) l trs →
  Forall (λ tr, ledger_lines tr = []) trs.
Proof. induction 1; by constructor. Qed.

Lemma receive_request_quiet ts from_id s net :
  ledger_lines (trace_after (receive_request ts from_id) net s) = [].
Proof.
  unfold trace_after.
  destruct (requesting s) eqn:Hr.
  - destruct (own_request_ts s) as [own|] eqn:Hown.
    + destruct (PyTuple.ltb (ts, from_id) (own, node_id s)) eqn:Hlt.
      * assert (reply_due ts from_id s) as Hdue by (right; eauto).
        destruct (peers s !! from_id) as [url|] eqn:Hurl.
        -- by rewrite (receive_request_reply_run _ _ _ _ url Hdue Hurl).
        -- by rewrite (receive_request_unknown_run _ _ _ _ Hdue Hurl).
      * by rewrite (receive_request_defer_run _ _ _ _ own Hr Hown Hlt).
    + by rewrite (receive_request_raise_run _ _ _ _ Hr Hown).
  - assert (reply_due ts from_id s) as Hdue by (by left).
    destruct (peers s !! from_id) as [url|] eqn:Hurl.
    + by rewrite (receive_request_reply_run _ _ _ _ url Hdue Hurl).
    + by rewrite (receive_request_unknown_run _ _ _ _ Hdue Hurl).
Qed.

Lemma send_request_to_all_quiet s net :
  ledger_lines (trace_after send_request_to_all net s) = [].
Proof.
  unfold trace_after, send_request_to_all. run_method.
  run_loop (λ (_ : string * string) tr, ledger_lines tr = []) net' trs Hrun HQ.
  - simpl. apply ledger_lines_concat. by eapply Forall2_quiet.
  - intros [pid url] net0. run_method.
    destruct (hd true net0); eexists _, _; (split; [reflexivity|]); done.
Qed.

Lemma send_release_to_all_quiet s net :
  ledger_lines (trace_after send_release_to_all net s) = [].
Proof.
  unfold trace_after, send_release_to_all. run_method.
  run_loop (λ (_ : string * string) tr, ledger_lines tr = []) net1 trs1 Hrun1 HQ1.
  - simpl.
    run_loop (λ (_ : string) tr, ledger_lines tr = []) net2 trs2 Hrun2 HQ2.
    + simpl. change (ledger_lines (concat trs1 ++ concat trs2) = []).
      rewrite ledger_lines_app.
      rewrite !ledger_lines_concat by (by eapply Forall2_quiet). done.
    + intros pid net0. run_method. destruct (peers s !! pid) as [url|]; simpl.
      * destruct (hd true net0); eexists _, _; (split; [reflexivity|]); done.
      * eexists _, _. split; [reflexivity|]. done.
  - intros [pid url] net0. run_method.
    destruct (hd true net0); eexists _, _; (split; [reflexivity|]); done.
Qed.

Lemma passes_snoc id n :
  passes id n ++ [LedgerEntered id; LedgerExiting id] = passes id (S n).
Proof. induction n as [|n IH]; [done|]. simpl. by rewrite IH. Qed.

Lemma begin_cycle_quiet s net :
  ledger_lines (trace_after begin_cycle net s) = [].
Proof.
  pose proof (send_request_to_all_quiet
                (set_requesting true (set_replies_received ∅ s)) net) as Hq.
  unfold trace_after in *. unfold begin_cycle, mbind, M_bind, modify. simpl.
  destruct (send_request_to_all _) as [[[a|e] w1] tr1]; simpl in *; [|done].
  rewrite ledger_lines_app, Hq. done.
Qed.

Lemma end_cycle_quiet s net :
  ledger_lines (trace_after end_cycle net s) = [].
Proof.
  pose proof (send_release_to_all_quiet
                (set_replies_received ∅ (set_requesting false s)) net) as Hq.
  unfold trace_after in *. unfold end_cycle, mbind, M_bind, modify. simpl.
  by destruct (send_release_to_all _) as [[[a|e] w1] tr1].
Qed.

(** X14: the lines a node has written to the shared ledger are, in every
    reachable state, whole passes through [critical_section], an ENTERED
    line followed by an EXITING line, with one more ENTERED line at the end
    exactly when the node is in its critical section. *)
Theorem ledger_passes_alternate (id : string) (cfg : gmap string string) (p : proc) :
  reachable id cfg p →
  ∃ n, ledger_lines (trace_of p)
       = passes id n ++ (if decide (phase_of p = InCriticalSection)
                         then [LedgerEntered id] else []).
Proof.
  induction 1 as [|a p p' Hreach [n IH] Hstep]; [by exists 0%nat|].
  pose proof (reachable_consistent id cfg p Hreach) as (Hid & _).
  destruct p as [ph s tr]. simpl in *.
  destruct a as [ts f net|ts f|ts f|net| |net]; simpl in Hstep.
  - exists n. pose proof (receive_request_quiet ts f s net) as Hq.
    unfold run_method, trace_after in *. simpl in *.
    destruct (receive_request ts f (World s net)) as [[o w] tr'].
    simplify_eq/=. by rewrite ledger_lines_app, Hq, app_nil_r.
  - exists n. simplify_eq/=. by rewrite ledger_lines_app, app_nil_r.
  - exists n. simplify_eq/=. by rewrite ledger_lines_app, app_nil_r.
  - destruct ph; try done. exists n.
    pose proof (begin_cycle_quiet s net) as Hq.
    unfold run_method, trace_after in *. simpl in *.
    destruct (begin_cycle (World s net)) as [[[?|?] w] tr']; [|done].
    simplify_eq/=. by rewrite ledger_lines_app, Hq, app_nil_r.
  - destruct ph; try done. unfold run_method in Hstep; simpl in Hstep.
    rewrite can_enter_cs_run in Hstep.
    destruct (request_queue s) as [|first rest], (own_request_ts s) as [own|];
      simpl in Hstep; try done; destruct (truthy _); simplify_eq/=;
      exists n; rewrite ?app_nil_r, ?ledger_lines_app; try done.
    all: by rewrite IH, app_nil_r.
  - destruct ph; try done. exists (S n).
    pose proof (end_cycle_quiet s net) as Hq.
    unfold run_method, trace_after in *. simpl in *.
    unfold mbind, M_bind in Hstep. rewrite critical_section_exit_run in Hstep.
    destruct (end_cycle (World s net)) as [[[?|?] w] tr']; [|done].
    simplify_eq/=. rewrite ledger_lines_app, IH, app_nil_r.
    change (ledger_lines (LedgerExiting (node_id s)
              :: Log (clock s) ExitingCriticalSection :: tr'))
      with (LedgerExiting (node_id s) :: ledger_lines tr').
    rewrite Hq, <- app_assoc. exact (passes_snoc (node_id s) n).
Qed.

Lemma ledger_passes_alternate_witness :
  match node1_one_cycle with
  | Some p =>
      reachable "1" three_nodes p
      ∧ ∃ n, ledger_lines (trace_of p)
             = passes "1" n ++ (if decide (phase_of p = InCriticalSection)
                                then [LedgerEntered "1"] else [])
  | None => False
  end.
Proof.
  pose proof (run_reachable "1" three_nodes
    [StartCycle []; DeliverRequest 5 "2" []; DeliverReply 6 "2";
     DeliverReply 3 "3"; Poll; FinishCycle [true; false]]
    (init "1" three_nodes)) as Hreach.
  fold node1_one_cycle in Hreach.
  destruct node1_one_cycle as [p|] eqn:Hrun; [|by vm_compute in Hrun].
  specialize (Hreach p (reach_init _ _) eq_refl).
  split; [exact Hreach|].
  exact (ledger_passes_alternate "1" three_nodes p Hreach).
Defined.

(** * The address in the configuration *)

Section Address.
Local Open Scope string_scope.

Lemma has_char_cons c a s :
  has_char c (String a s) = false → a ≠ c ∧ has_char c s = false.
Proof.
  simpl. intros [Ha Hs]%orb_false_iff. split; [|done].
  by apply Ascii.eqb_neq in Ha.
Qed.

Lemma append_cons c s t : String c s ++ t = String c (s ++ t).
Proof. reflexivity. Qed.

Lemma append_nil t : "" ++ t = t.
Proof. reflexivity. Qed.

Ltac no_such_char :=
  repeat match goal with
         | H : has_char _ (String _ _) = false |- _ =>
             apply has_char_cons in H as [? H]
         end.

Lemma prefix_http_no_colon t :
  has_char ":" t = false → String.prefix "http://" t = false.
Proof.
  intros Ht.
  destruct t as [|c1 [|c2 [|c3 [|c4 [|c5 t]]]]];
    cbv [String.append]; cbn [String.prefix]; no_such_char;
    repeat (destruct (ascii_dec _ _); [subst|done]); done.
Qed.

Lemma occurs_http_no_colon t :
  has_char ":" t = false → occurs "http://" t = false.
Proof.
  induction t as [|c t IH]; [done|]. intros Ht.
  change (occurs "http://" (String c t))
    with (String.prefix "http://" (String c t) || occurs "http://" t).
  rewrite (prefix_http_no_colon _ Ht). apply has_char_cons in Ht as [_ Ht].
  by rewrite IH.
Qed.

Lemma prefix_http_host_port t port :
  has_char ":" t = false → has_char "/" port = false →
  String.prefix "http://" (t ++ String ":" port) = false.
Proof.
  intros Ht Hp.
  destruct t as [|c1 [|c2 [|c3 [|c4 [|c5 t]]]]];
    cbv [String.append]; cbn [String.prefix]; no_such_char;
    repeat (destruct (ascii_dec _ _); [subst|done]); try done.
  destruct port as [|d port]; [done|]. no_such_char.
  cbn [String.prefix]. destruct (ascii_dec "/" d); [by subst|done].
Qed.

Lemma occurs_http_host_port t port :
  has_char ":" t = false → has_char ":" port = false →
  has_char "/" port = false →
  occurs "http://" (t ++ String ":" port) = false.
Proof.
  intros Ht Hc Hp. induction t as [|c t IH].
  - rewrite append_nil.
    change (occurs "http://" (String ":" port))
      with (String.prefix "http://" (String ":" port) || occurs "http://" port).
    by rewrite (occurs_http_no_colon _ Hc).
  - rewrite append_cons.
    change (occurs "http://" (String c (t ++ String ":" port)))
      with (String.prefix "http://" (String c (t ++ String ":" port))
            || occurs "http://" (t ++ String ":" port)).
    rewrite <- append_cons.
    rewrite (prefix_http_host_port _ _ Ht Hp).
    apply has_char_cons in Ht as [_ Ht]. by rewrite IH.
Qed.

Lemma py_replace_absent old new s :
  occurs old s = false → py_replace_from old new 0 s = s.
Proof.
  induction s as [|c s IH]; [done|].
  change (occurs old (String c s))
    with (String.prefix old (String c s) || occurs old s).
  intros [Hp Hs]%orb_false_iff.
  change (py_replace_from old new 0 (String c s))
    with (if String.prefix old (String c s)
          then String.append new (py_replace_from old new (String.length old - 1) s)
          else String c (py_replace_from old new 0 s)).
  by rewrite Hp, IH.
Qed.

Lemma py_split_no_separator sep s :
  has_char sep s = false → py_split_from sep s = (s, []).
Proof.
  induction s as [|c s IH]; [done|]. intros Hs.
  apply has_char_cons in Hs as [Hc Hs]. simpl. rewrite (IH Hs).
  apply Ascii.eqb_neq in Hc. by rewrite Hc.
Qed.

Lemma py_split_at_separator sep s rest :
  has_char sep s = false →
  py_split_from sep (s ++ String sep rest) = (s, py_split sep rest).
Proof.
  induction s as [|c s IH]; intros Hs.
  - rewrite append_nil. simpl. unfold py_split.
    destruct (py_split_from sep rest) as [piece others].
    by rewrite Ascii.eqb_refl.
  - apply has_char_cons in Hs as [Hc Hs]. rewrite append_cons. simpl.
    rewrite (IH Hs). apply Ascii.eqb_neq in Hc. by rewrite Hc.
Qed.

Lemma main_host_port_plain host port :
  has_char ":" host = false → has_char ":" port = false →
  has_char "/" port = false →
  main_host_port (host ++ String ":" port) = Some (host, port).
Proof.
  intros Hh Hc Hp. unfold main_host_port, py_replace.
  rewrite py_replace_absent by (by apply occurs_http_host_port).
  unfold py_split. rewrite (py_split_at_separator _ _ _ Hh).
  unfold py_split. by rewrite (py_split_no_separator _ _ Hc).
Qed.

Lemma py_replace_scheme rest :
  py_replace "http://" "" ("http://" ++ rest) = py_replace "http://" "" rest.
Proof. by destruct rest. Qed.

(** X15: for a configured URL [http://host:port], or [host:port] with no
    scheme, where neither part holds a colon and the port holds no slash,
    [main] takes [host] as the host and hands [port] to [int]. *)
Theorem main_reads_host_and_port (host port : string) :
  has_char ":" host = false → has_char ":" port = false →
  has_char "/" port = false →
  main_host_port ("http://" ++ host ++ ":" ++ port) = Some (host, port)
  ∧ main_host_port (host ++ ":" ++ port) = Some (host, port).
Proof.
  intros Hh Hc Hp. split; [|by apply main_host_port_plain].
  unfold main_host_port. rewrite py_replace_scheme.
  by apply main_host_port_plain.
Qed.

Lemma main_reads_host_and_port_witness :
  (has_char ":" "localhost" = false ∧ has_char ":" "8001" = false
   ∧ has_char "/" "8001" = false)
  ∧ main_host_port "http://localhost:8001" = Some ("localhost", "8001").
Proof.
  split; [repeat split; reflexivity|].
  exact (proj1 (main_reads_host_and_port "localhost" "8001" eq_refl eq_refl eq_refl)).
Defined.

(** X16: for a configured URL with no colon after the scheme, [parts] has
    one element and [parts[1]] raises [IndexError]: [main] does not get as
    far as starting the node. *)
Theorem main_needs_a_port (host : string) :
  has_char ":" host = false →
  main_host_port ("http://" ++ host) = None
  ∧ main_host_port host = None.
Proof.
  intros Hh.
  assert (main_host_port host = None) as Hplain.
  { unfold main_host_port, py_replace.
    rewrite py_replace_absent by (by apply occurs_http_no_colon).
    unfold py_split. by rewrite (py_split_no_separator _ _ Hh). }
  split; [|exact Hplain]. unfold main_host_port.
  rewrite py_replace_scheme. exact Hplain.
Qed.

Lemma main_needs_a_port_witness :
  has_char ":" "localhost" = false
  ∧ main_host_port "http://localhost" = None.
Proof.
  split; [reflexivity|].
  exact (proj1 (main_needs_a_port "localhost" eq_refl)).
Defined.

End Address.
